(** * zeitgitter/stamper.py: the timestamping core, embedded in Rocq

    The [Stamper] class validates a request, records the commit id in
    [hashes.work], has one of its GnuPG handles sign the object text and
    returns the signed git object.  This file embeds the class: the
    validators with the regular expressions they run, the pool of GnuPG
    handles, the logging and signing steps as a state-and-exception
    monad over an explicit world, and the text of the git objects. *)

From Stdlib Require Import Strings.Ascii Strings.String Strings.Byte.
From stdpp Require Import base numbers list strings gmap pretty.

Open Scope N_scope.
Open Scope nat_scope.

(** ** Python text and bytes *)

(** A Python [str] is a sequence of Unicode code points. *)
Definition pystr := list N.

(** A literal of the source, read code point by code point. *)
Definition u (s : string) : pystr :=
  (λ a, N_of_ascii a) <$> list_ascii_of_string s.

Arguments u : simpl never.

(** The line feed, written ['\n'] in the source. *)
Definition LF : N := 10%N.
Definition nl : pystr := [LF].

(** [sub in s] for two strings. *)
Fixpoint startswith (sub s : pystr) : bool :=
  match sub, s with
  | [], _ => true
  | _ :: _, [] => false
  | a :: sub', b :: s' => (a =? b)%N && startswith sub' s'
  end.

Fixpoint contains (sub s : pystr) : bool :=
  startswith sub s ||
  match s with
  | [] => false
  | _ :: s' => contains sub s'
  end.

(** [s.replace(old, new)] for a one-character [old]. *)
Definition replace (old : N) (new s : pystr) : pystr :=
  c ← s; if (c =? old)%N then new else [c].

(** [s[:-1]] *)
Definition drop_last (s : pystr) : pystr := take (length s - 1) s.

(** [str(n)] and ['%d' % n] for an [int]. *)
Definition str_int (n : Z) : pystr := u (pretty n).

Arguments str_int : simpl never.

(** ** The fragment of [re] the validators use

    A pattern is a sequence of items: the two anchors and a character
    class under a greedy bounded repeat.  The class is a list of
    inclusive code point ranges. *)

Inductive re_item :=
| AT_BEGINNING
| AT_END
| IN_REPEAT (cs : list (N * N)) (lo hi : nat).

(** The code points a class lists. *)
Definition charset_members (cs : list (N * N)) : list N :=
  '(a, b) ← cs; N.of_nat <$> seq (N.to_nat a) (S (N.to_nat b) - N.to_nat a).

(** The simple lower-case mapping the matcher applies to the subject
    under [re.IGNORECASE].  It is given on the code points whose image is
    an ASCII letter: the capitals, U+0130 and U+212A.  Any other code
    point has an image outside [a-z] and is left in place here, which a
    class of ASCII ranges cannot tell apart. *)
Definition sre_lower_unicode (c : N) : N :=
  if (65 <=? c)%N && (c <=? 90)%N then (c + 32)%N
  else if (c =? 0x130)%N then 0x69%N
  else if (c =? 0x212A)%N then 0x6B%N
  else c.

(** Code points that share an upper case with an ASCII letter without
    being its lower case: dotless i with [i], long s with [s]. *)
Definition ignorecase_fixes (c : N) : list N :=
  if (c =? 0x69)%N then [0x131%N]
  else if (c =? 0x73)%N then [0x17F%N]
  else [].

(** The set a class is compiled to: its members, or under
    [re.IGNORECASE] their lower cases with the fixes of each. *)
Definition charmap (ignorecase : bool) (cs : list (N * N)) : list N :=
  if ignorecase then
    c ← charset_members cs;
    sre_lower_unicode c :: ignorecase_fixes (sre_lower_unicode c)
  else charset_members cs.

Definition in_charset (ignorecase : bool) (cs : list (N * N)) (c : N) : bool :=
  let ch := if ignorecase then sre_lower_unicode c else c in
  existsb (N.eqb ch) (charmap ignorecase cs).

(** [$] without [re.MULTILINE]: the end of the string, or just before a
    line feed that ends it. *)
Definition at_end (s : pystr) : bool :=
  match s with
  | [] => true
  | [c] => (c =? LF)%N
  | _ => false
  end.

(** The repeat takes as many characters as it can and gives them back
    one by one until the rest of the pattern, [k], matches. *)
Fixpoint count_match (inset : N → bool) (k : nat → pystr → bool)
    (lo hi pos : nat) (s : pystr) {struct hi} : bool :=
  match hi, s with
  | S hi', c :: s' =>
      (inset c && count_match inset k (pred lo) hi' (S pos) s')
      || ((lo =? 0) && k pos s)
  | _, _ => (lo =? 0) && k pos s
  end.

Fixpoint sre_match (ignorecase : bool) (p : list re_item)
    (pos : nat) (s : pystr) {struct p} : bool :=
  match p with
  | [] => true
  | AT_BEGINNING :: p' => (pos =? 0) && sre_match ignorecase p' pos s
  | AT_END :: p' => at_end s && sre_match ignorecase p' pos s
  | IN_REPEAT cs lo hi :: p' =>
      count_match (in_charset ignorecase cs) (sre_match ignorecase p')
        lo hi pos s
  end.

(** [re.match(pattern, string, flags)], as the truth value of its
    result: the pattern is tried at the start of the string only. *)
Definition re_match (pattern : list re_item) (s : pystr)
    (ignorecase : bool) : bool :=
  sre_match ignorecase pattern 0 s.

(** ** The validators *)

Definition rng (a b : string) : list (N * N) :=
  match u a, u b with
  | [x], [y] => [(x, y)]
  | _, _ => []
  end.

(** ['^[a-z][-._a-z0-9]{,99}$'] *)
Definition tag_pattern : list re_item :=
  [ AT_BEGINNING;
    IN_REPEAT (rng "a" "z") 1 1;
    IN_REPEAT (rng "-" "-" ++ rng "." "." ++ rng "_" "_"
               ++ rng "a" "z" ++ rng "0" "9") 0 99;
    AT_END ].

(** ['^[0-9a-f]{40}$'] *)
Definition commit_pattern : list re_item :=
  [ AT_BEGINNING;
    IN_REPEAT (rng "0" "9" ++ rng "a" "f") 40 40;
    AT_END ].

(** Both validators are used for their truth value only. *)
Definition valid_tag (tag : pystr) : bool :=
  if contains nl tag then false
  else re_match tag_pattern tag true && negb (contains (u "..") tag).

Definition valid_commit (commit : pystr) : bool :=
  if contains nl commit then false
  else re_match commit_pattern commit false.

(** ** The world around the stamper *)

(** [bytes(s, 'ASCII')]: a code point above 127 raises
    [UnicodeEncodeError], here [None]. *)
Definition bytes_ascii (s : pystr) : option (list byte) :=
  mapM (λ c, if (c <? 128)%N then Byte.of_N c else None) s.

(** A [gnupg.GPG] object, known by the directory it was made for. *)
Record GPG := mkGPG { gnupghome : pystr }.

(** [zeitgitter.config.arg], as far as the stamper reads it.  The
    timeout is in milliseconds; [None] waits without limit. *)
Module config.
Record arg := {
  max_parallel_signatures : Z;
  max_parallel_timeout : option N;
  own_url : pystr;
  keyid : pystr;
  gnupg_home : pystr;
  number_of_gpg_agents : Z;
  repository : pystr;
}.
End config.

Inductive lock := serialize | gpg_serialize.

(** What a call does to the outside, in the order it does it. *)
Inductive event :=
| LockAcquire (l : lock)
| LockRelease (l : lock)
| TimeTime (t : Z)
| GetEnv (name : pystr) (value : option Z)
| Open (dir name : pystr)
| Write (b : list byte)
| Fsync
| Close
| SemAcquire (timeout : option N) (ok : bool)
| SemRelease
| Sleep (d : N)
| SymlinkTo (link target : pystr)
| Print (g : GPG)
| ListKeys (g : GPG) (keys : pystr)
| ExportKeys (g : GPG) (keys : pystr)
| Sign (g : GPG) (data keyid : pystr) (extra_args : list pystr).

(** The exceptions the stamper raises itself or hands on from the
    signer.  The calls into the operating system (opening, writing and
    syncing the log, [lstat] and [symlink_to], the clock, the reading of
    [IGITT_FAKE_TIME] as an integer and the formatting of the time) are
    taken to succeed: the development follows the runs in which they
    do, and says nothing of an [OSError] or the like. *)
Inductive exn :=
| ValueError
| IndexError
| AssertionError
| UnicodeEncodeError
| GPGError.

Inductive outcome (A : Type) :=
| Return (a : A)
| Raise (e : exn).
Arguments Return {A} a.
Arguments Raise {A} e.

(** What the outside answers during one call; each answer is asked for
    at most once per request.  [IGITT_FAKE_TIME] is the variable's value
    as [int] reads it, [time_time] the clock reading as [int] truncates
    it, [strftime_gmtime now] the text of
    [time.strftime("%Y-%m-%d %H:%M:%S UTC", time.gmtime(now))].
    [sem_acquire] tells whether the semaphore, which the other requests
    share, grants a permit within the timeout.  [gpg_sign] gives the
    text [str] makes of the signature object, or the exception the call
    ends in. *)
Record environ := {
  IGITT_FAKE_TIME : option Z;
  time_time : Z;
  strftime_gmtime : Z → pystr;
  sem_acquire : bool;
  gpg_sign : GPG → pystr → pystr → list pystr → outcome pystr;
  gpg_list_keys : GPG → pystr → list (list pystr);
  gpg_export_keys : GPG → pystr → pystr;
}.

(** The mutable state: the two attributes of the stamper that change
    after construction, the paths that exist in the file system, the
    bytes of [hashes.work] as written and as forced to stable storage,
    and the events so far. *)
Record world := World {
  gpgs : list GPG;
  extra_delay : option N;
  fs : gset pystr;
  hashes_work : list byte;
  hashes_work_synced : list byte;
  trace : list event;
}.

Definition set_gpgs (f : list GPG → list GPG) (w : world) : world :=
  World (f (gpgs w)) (extra_delay w) (fs w) (hashes_work w)
        (hashes_work_synced w) (trace w).
Definition set_extra_delay (d : option N) (w : world) : world :=
  World (gpgs w) d (fs w) (hashes_work w) (hashes_work_synced w) (trace w).
Definition set_fs (f : gset pystr → gset pystr) (w : world) : world :=
  World (gpgs w) (extra_delay w) (f (fs w)) (hashes_work w)
        (hashes_work_synced w) (trace w).
Definition set_hashes_work (f : list byte → list byte) (w : world) : world :=
  World (gpgs w) (extra_delay w) (fs w) (f (hashes_work w))
        (hashes_work_synced w) (trace w).
Definition sync_hashes_work (w : world) : world :=
  World (gpgs w) (extra_delay w) (fs w) (hashes_work w)
        (hashes_work w) (trace w).
Definition set_trace (f : list event → list event) (w : world) : world :=
  World (gpgs w) (extra_delay w) (fs w) (hashes_work w)
        (hashes_work_synced w) (f (trace w)).

(** [Path.lstat] finds something at the path. *)
Definition lstat (p : pystr) (w : world) : bool := bool_decide (p ∈ fs w).

(** ** State and exceptions *)

Definition M (A : Type) : Type := world → outcome A * world.

Definition ret {A} (a : A) : M A := λ w, (Return a, w).
Definition raise {A} (e : exn) : M A := λ w, (Raise e, w).
Definition bind {A B} (m : M A) (k : A → M B) : M B := λ w,
  match m w with
  | (Return a, w') => k a w'
  | (Raise e, w') => (Raise e, w')
  end.

Notation "'do' x <- m ; k" := (bind m (λ x, k))
  (at level 10, x name, m at level 100, k at level 200,
   format "'[v' 'do'  x  <-  m ; '/' k ']'").
Notation "m >> k" := (bind m (λ _, k))
  (at level 100, k at level 200, right associativity).

Definition gets {A} (f : world → A) : M A := λ w, (Return (f w), w).
Definition modify (f : world → world) : M unit := λ w, (Return (), f w).
Definition emit (e : event) : M unit := modify (set_trace (λ t, t ++ [e])).

(** [try: body finally: cleanup], and the [with] statement of a lock. *)
Definition finally {A} (body : M A) (cleanup : M unit) : M A := λ w,
  match body w with
  | (r, w1) =>
      match cleanup w1 with
      | (Return _, w2) => (r, w2)
      | (Raise e, w2) => (Raise e, w2)
      end
  end.

Definition with_lock {A} (l : lock) (body : M A) : M A :=
  emit (LockAcquire l) >> finally body (emit (LockRelease l)).

(** ** The stamper *)

(** The attributes [__init__] sets once and no method changes. *)
Record Stamper := {
  timeout : option N;
  url : pystr;
  keyid : pystr;
  keyinfo : list (list pystr);
  fullid : pystr;
  pubkey : pystr;
}.

(** The values the two entry points return: [406], [None] or a text. *)
Inductive pyval :=
| PyInt (z : Z)
| PyNone
| PyStr (s : pystr).

Section stamper.
Variable arg : config.arg.
Variable env : environ.

(** ['%s-%d' % (gnupg_home, n)] *)
Definition agent_home (n : nat) : pystr :=
  config.gnupg_home arg ++ u "-" ++ str_int (Z.of_nat n).

Definition gpg : M GPG :=
  with_lock gpg_serialize (
    do gs <- gets gpgs;
    if (Z.of_nat (length gs) <? config.number_of_gpg_agents arg)%Z then
      let home := agent_home (length gs) in
      do found <- gets (lstat home);
      (if found then ret ()
       else modify (set_fs (λ f, {[home]} ∪ f))
            >> emit (SymlinkTo home (config.gnupg_home arg))) >>
      let nextgpg := mkGPG home in
      modify (set_gpgs (λ l, l ++ [nextgpg])) >>
      emit (Print nextgpg) >>
      ret nextgpg
    else
      match gs with
      | [] => raise IndexError
      | nextgpg :: _ =>
          modify (set_gpgs (drop 1)) >>
          modify (set_gpgs (λ l, l ++ [nextgpg])) >>
          emit (Print nextgpg) >>
          ret nextgpg
      end).

Definition sig_time : M Z :=
  emit (TimeTime (time_time env)) >>
  emit (GetEnv (u "IGITT_FAKE_TIME") (IGITT_FAKE_TIME env)) >>
  ret (default (time_time env) (IGITT_FAKE_TIME env)).

Definition get_public_key (self : Stamper) : pystr := pubkey self.

Definition limited_sign (self : Stamper) (now : Z) (commit data : pystr)
    : M (option pystr) :=
  emit (SemAcquire (timeout self) (sem_acquire env)) >>
  if sem_acquire env then
    finally (
      do d <- gets extra_delay;
      match d with
      | Some d => if (d =? 0)%N then ret () else emit (Sleep d)
      | None => ret ()
      end >>
      do g <- gpg;
      let extra_args := [u "--faked-system-time"; str_int now ++ u "!"] in
      emit (Sign g data (keyid self) extra_args) >>
      match gpg_sign env g data (keyid self) extra_args with
      | Return sig => ret (Some sig)
      | Raise e => raise e
      end)
    (emit SemRelease)
  else ret None.

Definition log_commit (commit : pystr) : M unit :=
  emit (Open (config.repository arg) (u "hashes.work")) >>
  finally (
    match bytes_ascii (commit ++ nl) with
    | Some b =>
        modify (set_hashes_work (λ f, f ++ b)) >> emit (Write b) >>
        modify sync_hashes_work >> emit Fsync
    | None => raise UnicodeEncodeError
    end)
  (emit Close).

Definition tagobj (self : Stamper) (commit tagname : pystr) (now : Z)
    : pystr :=
  u "object " ++ commit ++ nl ++
  u "type commit" ++ nl ++
  u "tag " ++ tagname ++ nl ++
  u "tagger " ++ fullid self ++ u " " ++ str_int now ++ u " +0000" ++ nl ++
  nl ++
  url self ++ u " tag timestamp" ++ nl.

Definition stamp_tag (self : Stamper) (commit tagname : pystr) : M pyval :=
  if valid_commit commit && valid_tag tagname then
    do now <- with_lock serialize (
      do now <- sig_time;
      log_commit commit >>
      ret now);
    let isonow := strftime_gmtime env now in
    let tagobj := tagobj self commit tagname now in
    do sig <- limited_sign self now commit tagobj;
    match sig with
    | None => ret PyNone
    | Some sig => ret (PyStr (tagobj ++ sig))
    end
  else ret (PyInt 406).

Definition commitobj1 (self : Stamper) (commit : pystr)
    (parent : option pystr) (tree : pystr) (now : Z) : pystr :=
  match parent with
  | None =>
      u "tree " ++ tree ++ nl ++
      u "parent " ++ commit ++ nl ++
      u "author " ++ fullid self ++ u " " ++ str_int now ++ u " +0000" ++ nl ++
      u "committer " ++ fullid self ++ u " " ++ str_int now ++ u " +0000" ++ nl
  | Some parent =>
      u "tree " ++ tree ++ nl ++
      u "parent " ++ parent ++ nl ++
      u "parent " ++ commit ++ nl ++
      u "author " ++ fullid self ++ u " " ++ str_int now ++ u " +0000" ++ nl ++
      u "committer " ++ fullid self ++ u " " ++ str_int now ++ u " +0000" ++ nl
  end.

Definition commitobj2 (self : Stamper) (isonow : pystr) : pystr :=
  nl ++ url self ++ u " branch timestamp " ++ isonow ++ nl.

(** ['gpgsig ' + str(sig).replace('\n', '\n ')[:-1]] *)
Definition gpgsig (sig : pystr) : pystr :=
  u "gpgsig " ++ drop_last (replace LF (nl ++ u " ") sig).

Definition stamp_branch (self : Stamper) (commit : pystr)
    (parent : option pystr) (tree : pystr) : M pyval :=
  if valid_commit commit && valid_commit tree
     && match parent with None => true | Some p => valid_commit p end then
    do now <- with_lock serialize (
      do now <- sig_time;
      log_commit commit >>
      ret now);
    let isonow := strftime_gmtime env now in
    let commitobj1 := commitobj1 self commit parent tree now in
    let commitobj2 := commitobj2 self isonow in
    do sig <- limited_sign self now commit (commitobj1 ++ commitobj2);
    match sig with
    | None => ret PyNone
    | Some sig =>
        let gpgsig := gpgsig sig in
        if bool_decide (last gpgsig = Some LF) then
          ret (PyStr (commitobj1 ++ gpgsig ++ commitobj2))
        else raise AssertionError
    end
  else ret (PyInt 406).

(** [Stamper.__init__] *)
Definition init : M Stamper :=
  (if (config.max_parallel_signatures arg <? 0)%Z
   then raise ValueError else ret ()) >>
  modify (set_gpgs (λ _, [mkGPG (config.gnupg_home arg)])) >>
  do g <- gpg;
  emit (ListKeys g (config.keyid arg)) >>
  let keyinfo := gpg_list_keys env g (config.keyid arg) in
  if length keyinfo =? 0 then raise ValueError
  else
    match keyinfo !! 0 ≫= (.!! 0) with
    | None => raise IndexError
    | Some fullid =>
        do g <- gpg;
        emit (ExportKeys g (config.keyid arg)) >>
        let pubkey := gpg_export_keys env g (config.keyid arg) in
        modify (set_extra_delay None) >>
        ret {| timeout := config.max_parallel_timeout arg;
               url := config.own_url arg;
               keyid := config.keyid arg;
               keyinfo := keyinfo;
               fullid := fullid;
               pubkey := pubkey |}
    end.

(** [k] calls of [gpg] in a row, with the handles they return. *)
Fixpoint selections (k : nat) : M (list GPG) :=
  match k with
  | 0 => ret []
  | S k' => do g <- gpg; do gs <- selections k'; ret (g :: gs)
  end.

End stamper.

(** * Vocabulary of the statements *)

(** A lower-case hexadecimal digit: [0-9] or [a-f]. *)
Definition lower_hex (c : N) : Prop :=
  (48 ≤ c ≤ 57)%N ∨ (97 ≤ c ≤ 102)%N.

(** A hexadecimal digit of either case, as the specification has it. *)
Definition hex_digit (c : N) : Prop :=
  lower_hex c ∨ (65 ≤ c ≤ 70)%N.

(** The specification's [validCommit]: exactly 40 characters, all
    hexadecimal in either case, no line feed. *)
Definition spec_validCommit (s : pystr) : Prop :=
  length s = 40 ∧ Forall hex_digit s ∧ LF ∉ s.

(** What [[a-z]] matches under [re.IGNORECASE]: the 52 ASCII letters and
    the four code points whose case mapping meets them (U+0130, U+0131,
    U+017F, U+212A). *)
Definition letter_ignorecase (c : N) : Prop :=
  (97 ≤ c ≤ 122)%N ∨ (65 ≤ c ≤ 90)%N
  ∨ c = 0x130%N ∨ c = 0x131%N ∨ c = 0x17F%N ∨ c = 0x212A%N.

(** What [[-._a-z0-9]] matches under [re.IGNORECASE]. *)
Definition tag_char (c : N) : Prop :=
  letter_ignorecase c ∨ (48 ≤ c ≤ 57)%N
  ∨ c = 45%N ∨ c = 46%N ∨ c = 95%N.

(** The identifier grammar [^[a-z][-._a-z0-9]{0,99}$] on a whole string. *)
Definition tag_grammar (s : pystr) : Prop :=
  ∃ c rest, s = c :: rest ∧ letter_ignorecase c
            ∧ length rest ≤ 99 ∧ Forall tag_char rest.

(** The value [sig_time] returns: the override when the variable is
    set, the clock otherwise. *)
Definition sampled (env : environ) : Z :=
  default (time_time env) (IGITT_FAKE_TIME env).

(** The events of the block under the ordering lock, with [b] the bytes
    written. *)
Definition log_events (arg : config.arg) (env : environ) (b : list byte)
    : list event :=
  [ LockAcquire serialize;
    TimeTime (time_time env);
    GetEnv (u "IGITT_FAKE_TIME") (IGITT_FAKE_TIME env);
    Open (config.repository arg) (u "hashes.work");
    Write b; Fsync; Close;
    LockRelease serialize ].

(** The events of a signing attempt: the limiter, the injected delay,
    the choice of a handle and the call of the signer. *)
Definition signing_event (e : event) : bool :=
  match e with
  | SemAcquire _ _ | SemRelease | Sleep _ | SymlinkTo _ _ | Print _
  | Sign _ _ _ _ | LockAcquire gpg_serialize | LockRelease gpg_serialize =>
      true
  | _ => false
  end.

(** The byte strings a run of events writes to the log, the clock
    readings it takes and the signer calls it makes. *)
Definition writes (evs : list event) : list (list byte) :=
  omap (λ e, match e with Write b => Some b | _ => None end) evs.

Definition clock_reads (evs : list event) : list Z :=
  omap (λ e, match e with TimeTime t => Some t | _ => None end) evs.

Definition sign_calls (evs : list event)
    : list (GPG * pystr * pystr * list pystr) :=
  omap (λ e, match e with
             | Sign g d k a => Some (g, d, k, a)
             | _ => None
             end) evs.



(** The validation of a branch request. *)
Definition valid_branch (commit : pystr) (parent : option pystr)
    (tree : pystr) : bool :=
  valid_commit commit && valid_commit tree
  && match parent with None => true | Some p => valid_commit p end.

(** Every handle of the pool is the first one or was made for an index
    below the size of the pool, and no handle occurs twice. *)
Definition pool_ok (arg : config.arg) (l : list GPG) : Prop :=
  NoDup l ∧
  ∀ g, g ∈ l →
    g = mkGPG (config.gnupg_home arg)
    ∨ ∃ i, 0 < i < length l ∧ g = mkGPG (agent_home arg i).

(** Each line followed by a line feed, and [sep.join(ls)]. *)
Definition unlines (ls : list pystr) : pystr := l ← ls; l ++ nl.

Fixpoint join (sep : pystr) (ls : list pystr) : pystr :=
  match ls with
  | [] => []
  | [l] => l
  | l :: ls' => l ++ sep ++ join sep ls'
  end.

(** Some line of the text starts with the prefix. *)
Definition has_line_with (prefix text : pystr) : bool :=
  startswith prefix text || contains (nl ++ prefix) text.

(** A line of an object that carries the time: the label, the identity,
    the decimal time and the zone. *)
Definition time_line (label : string) (self : Stamper) (now : Z) : pystr :=
  u label ++ fullid self ++ u " " ++ str_int now ++ u " +0000" ++ nl.




(** ** A deployment to run the statements on *)

Definition arg0 : config.arg :=
  {| config.max_parallel_signatures := 2;
     config.max_parallel_timeout := Some 1000%N;
     config.own_url := u "https://example.org";
     config.keyid := u "0123456789ABCDEF";
     config.gnupg_home := u "/var/lib/zeitgitter/.gnupg";
     config.number_of_gpg_agents := 3;
     config.repository := u "/var/lib/zeitgitter/repo" |}.

(** An environment whose signer answers with a two-line text, and the
    same environment with the limiter exhausted. *)
Definition env0 : environ :=
  {| IGITT_FAKE_TIME := Some 1577836800%Z;
     time_time := 1600000000%Z;
     strftime_gmtime := λ _, u "2020-01-01 00:00:00 UTC";
     sem_acquire := true;
     gpg_sign := λ _ _ _ _, Return (u "SIGLINE1" ++ nl ++ u "SIGLINE2" ++ nl);
     gpg_list_keys := λ _ _, [[u "Alice <alice@example.com>"]];
     gpg_export_keys := λ _ _, u "PUBLIC KEY" |}.

Definition env_busy : environ :=
  {| IGITT_FAKE_TIME := IGITT_FAKE_TIME env0;
     time_time := time_time env0;
     strftime_gmtime := strftime_gmtime env0;
     sem_acquire := false;
     gpg_sign := gpg_sign env0;
     gpg_list_keys := gpg_list_keys env0;
     gpg_export_keys := gpg_export_keys env0 |}.

Definition self0 : Stamper :=
  {| timeout := config.max_parallel_timeout arg0;
     url := config.own_url arg0;
     keyid := config.keyid arg0;
     keyinfo := [[u "Alice <alice@example.com>"]];
     fullid := u "Alice <alice@example.com>";
     pubkey := u "PUBLIC KEY" |}.

(** The world as [__init__] has it when it has made the first handle. *)
Definition w0 : world :=
  World [mkGPG (config.gnupg_home arg0)] None ∅ [] [] [].

(** The world before the stamper is constructed. *)
Definition w_boot : world := World [] None ∅ [] [] [].

(** The number of handles after [k] selections from a given world. *)
Definition handles_after (w : world) (k : nat) : nat :=
  length (gpgs (selections arg0 k w).2).

Definition commit0 : pystr := u "aaaaaaaaaaaaaaaaaaaaaaaaaaaaaaaaaaaaaaaa".
Definition tree0 : pystr := u "0123456789abcdef0123456789abcdef01234567".
Definition upper0 : pystr := u "0123456789ABCDEF0123456789ABCDEF01234567".

(** ** Vocabulary of the further properties *)

(** The ASCII reading of the tag grammar:
    [[A-Za-z][-._A-Za-z0-9]{0,99}]. *)
Definition ascii_letter (c : N) : Prop :=
  (97 ≤ c ≤ 122)%N ∨ (65 ≤ c ≤ 90)%N.

Definition ascii_tag_char (c : N) : Prop :=
  ascii_letter c ∨ (48 ≤ c ≤ 57)%N ∨ c = 45%N ∨ c = 46%N ∨ c = 95%N.

Definition ascii_tag_grammar (s : pystr) : Prop :=
  ∃ c rest, s = c :: rest ∧ ascii_letter c
            ∧ length rest ≤ 99 ∧ Forall ascii_tag_char rest.

(** The four letters outside ASCII that [re.IGNORECASE] lets through. *)
Definition folded_letter (c : N) : Prop :=
  c = 0x130%N ∨ c = 0x131%N ∨ c = 0x17F%N ∨ c = 0x212A%N.

(** The world after the block under the ordering lock has written and
    synced the bytes [b]. *)
Definition logged (arg : config.arg) (env : environ) (b : list byte)
    (w : world) : world :=
  World (gpgs w) (extra_delay w) (fs w) (hashes_work w ++ b)
    (hashes_work w ++ b) (trace w ++ log_events arg env b).

(** The events of the limiter. *)
Definition sem_event (e : event) : bool :=
  match e with
  | SemAcquire _ _ | SemRelease => true
  | _ => false
  end.

(** The events of a choice of handle. *)
Definition pool_event (e : event) : bool :=
  match e with
  | SymlinkTo _ _ | Print _
  | LockAcquire gpg_serialize | LockRelease gpg_serialize => true
  | _ => false
  end.

Definition lock_eqb (l1 l2 : lock) : bool :=
  match l1, l2 with
  | serialize, serialize | gpg_serialize, gpg_serialize => true
  | _, _ => false
  end.

(** The lock discipline, checked along a run of events with the lock
    that is held: a lock is taken only while none is held and given back
    by its holder; the clock, the environment and the log are touched
    under [serialize] only, the links and the output of [gpg] under
    [gpg_serialize] only; the limiter, the delay, the signer and the
    key queries run with no lock held.  The result is the lock held at
    the end, or [None] where the discipline is broken. *)
Fixpoint lock_walk (held : option lock) (evs : list event)
    : option (option lock) :=
  match evs with
  | [] => Some held
  | e :: evs' =>
      match e, held with
      | LockAcquire l, None => lock_walk (Some l) evs'
      | LockRelease l, Some l' =>
          if lock_eqb l l' then lock_walk None evs' else None
      | (TimeTime _ | GetEnv _ _ | Open _ _ | Write _ | Fsync | Close),
        Some serialize => lock_walk held evs'
      | (SymlinkTo _ _ | Print _), Some gpg_serialize => lock_walk held evs'
      | (SemAcquire _ _ | SemRelease | Sleep _ | Sign _ _ _ _
         | ListKeys _ _ | ExportKeys _ _), None => lock_walk held evs'
      | _, _ => None
      end
  end.

(** The events of the limiter in a run of events, in order. *)
Definition sem_events (evs : list event) : list event :=
  omap (λ e, if sem_event e then Some e else None) evs.

(** Every line feed of the text is its last character or is followed by
    a space: the text is one header with continuation lines. *)
Fixpoint continued (s : pystr) : bool :=
  match s with
  | [] => true
  | c :: s' =>
      (if (c =? LF)%N
       then match s' with
            | [] => true
            | c' :: _ => (c' =? 32)%N
            end
       else true)
      && continued s'
  end.

(** An environment whose signer answers with a text that has no final
    line feed. *)
Definition env_bare : environ :=
  {| IGITT_FAKE_TIME := IGITT_FAKE_TIME env0;
     time_time := time_time env0;
     strftime_gmtime := strftime_gmtime env0;
     sem_acquire := true;
     gpg_sign := λ _ _ _ _, Return (u "SIGLINE1");
     gpg_list_keys := gpg_list_keys env0;
     gpg_export_keys := gpg_export_keys env0 |}.

(** The links made in a run of events, each with its target. *)
Definition links (evs : list event) : list (pystr * pystr) :=
  omap (λ e, match e with SymlinkTo l t => Some (l, t) | _ => None end) evs.

(** The requests that reach the stamper, and a run of them on the one
    stamper of the server, each in the environment it meets. *)
Inductive request :=
  | TagRequest (commit tagname : pystr)
  | BranchRequest (commit : pystr) (parent : option pystr) (tree : pystr).

Definition serve (arg : config.arg) (env : environ) (self : Stamper)
    (q : request) : M pyval :=
  match q with
  | TagRequest commit tagname => stamp_tag arg env self commit tagname
  | BranchRequest commit parent tree =>
      stamp_branch arg env self commit parent tree
  end.

Fixpoint served (arg : config.arg) (self : Stamper)
    (qs : list (environ * request)) (w : world) : world :=
  match qs with
  | [] => w
  | (env, q) :: qs' => served arg self qs' (serve arg env self q w).2
  end.

(** What every step of the stamper keeps between two worlds: no handle
    leaves the pool, a pool that is in order stays so and does not grow
    beyond the configured number, no path disappears, and a link is made
    once, to the GnuPG home, at a path of an agent that was not there. *)
Definition evolves (arg : config.arg) (w w' : world) : Prop :=
  (∀ g, g ∈ gpgs w → g ∈ gpgs w')
  ∧ (gpgs w ≠ [] → pool_ok arg (gpgs w) → pool_ok arg (gpgs w'))
  ∧ (Z.of_nat (length (gpgs w'))
     ≤ (Z.of_nat (length (gpgs w)) `max` config.number_of_gpg_agents arg))%Z
  ∧ (∀ p, p ∈ fs w → p ∈ fs w')
  ∧ ∃ evs,
      trace w' = trace w ++ evs
      ∧ NoDup (links evs).*1
      ∧ ∀ l t, (l, t) ∈ links evs →
          t = config.gnupg_home arg ∧ (l ∉ fs w) ∧ l ∈ fs w'
          ∧ ∃ i, (gpgs w ≠ [] → 0 < i)
                 ∧ (Z.of_nat i < config.number_of_gpg_agents arg)%Z
                 ∧ l = agent_home arg i.

(** * Properties *)

(** ** Text *)

Lemma startswith_spec (sub s : pystr) :
  startswith sub s = true ↔ ∃ b, s = sub ++ b.
Proof.
  revert s. induction sub as [|a sub IH]; intros s; simpl.
  - split; [intros _; by exists s|done].
  - destruct s as [|b s]; [split; [done|intros [? [=]]]|].
    rewrite andb_true_iff, N.eqb_eq, IH. split.
    + intros [-> [t ->]]. by exists t.
    + intros [t [= -> ->]]. eauto.
Qed.

Lemma contains_spec (sub s : pystr) :
  contains sub s = true ↔ ∃ a b, s = a ++ sub ++ b.
Proof.
  induction s as [|c s IH]; simpl; rewrite orb_true_iff, startswith_spec.
  - split.
    + intros [[b Hb]|[=]]. by exists [], b.
    + intros (a & b & H). left. destruct a as [|? a]; [by exists b|done].
  - rewrite IH. split.
    + intros [[b Hb]|(a & b & ->)]; [by exists [], b|by exists (c :: a), b].
    + intros (a & b & H). destruct a as [|x a]; simpl in H.
      * left. by exists b.
      * right. injection H as -> ->. by exists a, b.
Qed.

Lemma contains_nl (s : pystr) : contains nl s = true ↔ LF ∈ s.
Proof.
  rewrite contains_spec. split.
  - intros (a & b & ->). set_solver.
  - intros (a & b & ->)%list_elem_of_split. by exists a, b.
Qed.

Lemma contains_nl_false (s : pystr) : contains nl s = false ↔ LF ∉ s.
Proof. rewrite <- contains_nl. by destruct (contains nl s). Qed.

(** ** The matcher *)

Lemma count_match_spec inset k lo hi pos s :
  count_match inset k lo hi pos s = true ↔
  ∃ n, lo ≤ n ≤ hi ∧ n ≤ length s
       ∧ Forall (λ c, inset c = true) (take n s)
       ∧ k (pos + n) (drop n s) = true.
Proof.
  revert lo pos s. induction hi as [|hi IH]; intros lo pos s.
  - assert (count_match inset k lo 0 pos s = (lo =? 0) && k pos s) as ->
      by by destruct s.
    rewrite andb_true_iff, Nat.eqb_eq. split.
    + intros [-> Hk]. exists 0. rewrite Nat.add_0_r, take_0, drop_0.
      repeat split; auto with lia.
    + intros (n & Hn & _ & _ & Hk). assert (n = 0) as -> by lia.
      rewrite Nat.add_0_r, drop_0 in Hk. split; [lia|done].
  - destruct s as [|c s]; simpl.
    + rewrite andb_true_iff, Nat.eqb_eq. split.
      * intros [-> Hk]. exists 0. rewrite Nat.add_0_r. simpl.
        repeat split; auto with lia.
      * intros (n & Hn & Hlen & _ & Hk). simpl in Hlen.
        assert (n = 0) as -> by lia.
        rewrite Nat.add_0_r in Hk. split; [lia|done].
    + rewrite orb_true_iff, !andb_true_iff, Nat.eqb_eq, IH. split.
      * intros [[Hc (n & Hn & Hlen & Hall & Hk)]|[-> Hk]].
        -- exists (S n). simpl. replace (pos + S n) with (S pos + n) by lia.
           repeat split; auto with lia.
        -- exists 0. rewrite Nat.add_0_r. simpl.
           repeat split; auto with lia.
      * intros ([|n] & Hn & Hlen & Hall & Hk); simpl in *.
        -- right. rewrite Nat.add_0_r in Hk. split; [lia|done].
        -- left. apply Forall_cons in Hall as [Hc Hall]. split; [done|].
           exists n. rewrite <- Nat.add_succ_r.
           repeat split; auto with lia.
Qed.

Lemma at_end_spec (s : pystr) : at_end s = true ↔ s = [] ∨ s = nl.
Proof.
  unfold nl. destruct s as [|c [|d s]]; simpl; rewrite ?N.eqb_eq;
    intuition congruence.
Qed.

Lemma elem_of_charset_members (cs : list (N * N)) (c : N) :
  c ∈ charset_members cs ↔ ∃ a b, (a, b) ∈ cs ∧ (a ≤ c ≤ b)%N.
Proof.
  unfold charset_members. rewrite list_elem_of_bind. split.
  - intros ([a b] & Hc & Hab). exists a, b. split; [done|].
    apply list_elem_of_fmap in Hc as (n & -> & Hn%elem_of_seq). lia.
  - intros (a & b & Hab & Hc). exists (a, b). split; [|done].
    apply list_elem_of_fmap. exists (N.to_nat c). split; [lia|].
    apply elem_of_seq. lia.
Qed.

Lemma existsb_eqb (c : N) (l : list N) : existsb (N.eqb c) l = true ↔ c ∈ l.
Proof.
  rewrite existsb_exists. split.
  - intros (x & Hx%list_elem_of_In & ->%N.eqb_eq). done.
  - intros Hc. exists c. by rewrite <- list_elem_of_In, N.eqb_eq.
Qed.

Lemma in_charset_exact cs c :
  in_charset false cs c = true ↔ ∃ a b, (a, b) ∈ cs ∧ (a ≤ c ≤ b)%N.
Proof.
  unfold in_charset, charmap. by rewrite existsb_eqb, elem_of_charset_members.
Qed.

Lemma in_charset_ignorecase cs c :
  in_charset true cs c = true ↔
  ∃ a b m, (a, b) ∈ cs ∧ (a ≤ m ≤ b)%N
    ∧ (sre_lower_unicode c = sre_lower_unicode m
       ∨ sre_lower_unicode c ∈ ignorecase_fixes (sre_lower_unicode m)).
Proof.
  unfold in_charset, charmap. rewrite existsb_eqb, list_elem_of_bind. split.
  - intros (m & Hc & (a & b & Hab & Hm)%elem_of_charset_members).
    exists a, b, m. by rewrite <- elem_of_cons.
  - intros (a & b & m & Hab & Hm & Hc). exists m.
    rewrite elem_of_cons, elem_of_charset_members. eauto.
Qed.

Lemma sre_lower_unicode_cases (c : N) :
  ((65 ≤ c ≤ 90)%N ∧ sre_lower_unicode c = (c + 32)%N)
  ∨ (c = 0x130%N ∧ sre_lower_unicode c = 0x69%N)
  ∨ (c = 0x212A%N ∧ sre_lower_unicode c = 0x6B%N)
  ∨ (¬ (65 ≤ c ≤ 90)%N ∧ c ≠ 0x130%N ∧ c ≠ 0x212A%N
     ∧ sre_lower_unicode c = c).
Proof.
  unfold sre_lower_unicode.
  destruct (N.leb_spec 65 c), (N.leb_spec c 90); simpl;
    destruct (N.eqb_spec c 0x130), (N.eqb_spec c 0x212A); lia.
Qed.

Lemma ignorecase_fixes_spec (x c : N) :
  x ∈ ignorecase_fixes c ↔
  (c = 0x69%N ∧ x = 0x131%N) ∨ (c = 0x73%N ∧ x = 0x17F%N).
Proof.
  unfold ignorecase_fixes.
  destruct (N.eqb_spec c 0x69), (N.eqb_spec c 0x73); subst;
    rewrite ?list_elem_of_singleton, ?elem_of_nil; intuition congruence.
Qed.

(** ** The validators, read off their patterns *)

Lemma hex_class (c : N) :
  in_charset false (rng "0" "9" ++ rng "a" "f") c = true ↔ lower_hex c.
Proof.
  rewrite in_charset_exact.
  change (rng "0" "9" ++ rng "a" "f") with [(48, 57); (97, 102)]%N.
  unfold lower_hex. split.
  - intros (a & b & Hab & Hc).
    rewrite !elem_of_cons, elem_of_nil in Hab.
    destruct Hab as [[= -> ->]|[[= -> ->]|[]]]; auto.
  - intros [Hc|Hc]; [exists 48%N, 57%N|exists 97%N, 102%N];
      (split; [|done]); rewrite !elem_of_cons; auto.
Qed.

Lemma letter_class (c : N) :
  in_charset true (rng "a" "z") c = true ↔ letter_ignorecase c.
Proof.
  rewrite in_charset_ignorecase.
  change (rng "a" "z") with [(97, 122)]%N.
  unfold letter_ignorecase. split.
  - intros (a & b & m & Hab & Hm & Hc).
    apply list_elem_of_singleton in Hab as [= -> ->].
    rewrite ignorecase_fixes_spec in Hc.
    destruct (sre_lower_unicode_cases c) as [?|[?|[?|?]]],
      (sre_lower_unicode_cases m) as [?|[?|[?|?]]]; lia.
  - intros Hc. exists 97%N, 122%N.
    setoid_rewrite ignorecase_fixes_spec.
    destruct (sre_lower_unicode_cases c) as [[? Hl]|[[? Hl]|[[? Hl]|(? & ? & ? & Hl)]]].
    + exists (c + 32)%N. split; [by left|]. split; [lia|]. left.
      destruct (sre_lower_unicode_cases (c + 32)) as [?|[?|[?|?]]]; lia.
    + exists 0x69%N. split; [by left|]. split; [lia|]. by left.
    + exists 0x6B%N. split; [by left|]. split; [lia|]. by left.
    + destruct (decide (c = 0x131%N)) as [->|];
        [|destruct (decide (c = 0x17F%N)) as [->|]].
      * exists 0x69%N. split; [by left|]. split; [lia|]. right. by left.
      * exists 0x73%N. split; [by left|]. split; [lia|]. right. by right.
      * exists c. split; [by left|]. split; [lia|]. by left.
Qed.

Lemma tag_class (c : N) :
  in_charset true (rng "-" "-" ++ rng "." "." ++ rng "_" "_"
                   ++ rng "a" "z" ++ rng "0" "9") c = true ↔ tag_char c.
Proof.
  change (rng "-" "-" ++ rng "." "." ++ rng "_" "_"
          ++ rng "a" "z" ++ rng "0" "9")
    with ([(45, 45); (46, 46); (95, 95)] ++ rng "a" "z" ++ [(48, 57)])%N.
  unfold tag_char. rewrite <- letter_class, !in_charset_ignorecase. split.
  - intros (a & b & m & Hab & Hm & Hc).
    rewrite !elem_of_app in Hab. destruct Hab as [Hab|[Hab|Hab]].
    + right. rewrite ignorecase_fixes_spec in Hc.
      rewrite !elem_of_cons, elem_of_nil in Hab.
      destruct (sre_lower_unicode_cases c) as [?|[?|[?|?]]],
        (sre_lower_unicode_cases m) as [?|[?|[?|?]]];
        destruct Hab as [[= -> ->]|[[= -> ->]|[[= -> ->]|[]]]]; lia.
    + left. eauto 10.
    + right. rewrite ignorecase_fixes_spec in Hc.
      apply list_elem_of_singleton in Hab as [= -> ->].
      destruct (sre_lower_unicode_cases c) as [?|[?|[?|?]]],
        (sre_lower_unicode_cases m) as [?|[?|[?|?]]]; lia.
  - intros [(a & b & m & Hab & Hm)|Hc].
    + exists a, b, m. rewrite !elem_of_app. auto.
    + assert (sre_lower_unicode c = c) as Hl
        by (destruct (sre_lower_unicode_cases c) as [?|[?|[?|?]]]; lia).
      assert (∃ a b, (a, b) ∈ [(45, 45); (46, 46); (95, 95); (48, 57)]%N
                     ∧ (a ≤ c ≤ b)%N) as (a & b & Hab & Hr).
      { destruct Hc as [?|[ -> | [ -> | -> ] ] ];
          [exists 48%N, 57%N|exists 45%N, 45%N
          |exists 46%N, 46%N|exists 95%N, 95%N];
          rewrite !elem_of_cons; auto 10 with lia. }
      exists a, b, c. split; [|by auto].
      rewrite !elem_of_app. rewrite !elem_of_cons in *.
      rewrite elem_of_nil in Hab. tauto.
Qed.

Lemma sre_match_beginning ignorecase p (s : pystr) :
  sre_match ignorecase (AT_BEGINNING :: p) 0 s = sre_match ignorecase p 0 s.
Proof. reflexivity. Qed.

Lemma sre_match_repeat ignorecase cs lo hi p pos (s : pystr) :
  sre_match ignorecase (IN_REPEAT cs lo hi :: p) pos s =
  count_match (in_charset ignorecase cs) (sre_match ignorecase p) lo hi pos s.
Proof. reflexivity. Qed.

(** A class repeated up to the end of a string without line feed takes
    the whole string. *)
Lemma class_to_end ignorecase cs lo hi pos (s : pystr) :
  LF ∉ s →
  sre_match ignorecase [IN_REPEAT cs lo hi; AT_END] pos s = true ↔
  lo ≤ length s ≤ hi ∧ Forall (λ c, in_charset ignorecase cs c = true) s.
Proof.
  intros Hnl. cbn [sre_match]. rewrite count_match_spec. split.
  - intros (n & Hn & Hlen & Hall & Hend).
    rewrite andb_true_r in Hend. apply at_end_spec in Hend as [Hd|Hd].
    + apply drop_nil_inv in Hd as Hd'.
      assert (n = length s) as -> by lia. by rewrite take_ge in Hall.
    + destruct Hnl. rewrite <- (take_drop n s), Hd. unfold nl.
      rewrite elem_of_app, list_elem_of_singleton. auto.
  - intros [Hlen Hall]. exists (length s).
    rewrite take_ge, drop_ge by lia. auto.
Qed.

(** [valid_commit], read off the code: 40 lower-case hexadecimal digits. *)
Lemma valid_commit_lower_hex (s : pystr) :
  valid_commit s = true ↔ length s = 40 ∧ Forall lower_hex s.
Proof.
  unfold valid_commit. destruct (contains nl s) eqn:Hnl.
  - apply contains_nl in Hnl. split; [done|]. intros [_ Hall].
    rewrite Forall_forall in Hall. apply Hall in Hnl.
    unfold lower_hex, LF in Hnl. lia.
  - apply contains_nl_false in Hnl.
    unfold re_match, commit_pattern.
    rewrite sre_match_beginning, (class_to_end _ _ _ _ _ _ Hnl).
    setoid_rewrite hex_class. intuition lia.
Qed.

(** [valid_tag], read off the code. *)
Lemma valid_tag_grammar (s : pystr) :
  valid_tag s = true ↔
  (LF ∉ s) ∧ tag_grammar s ∧ ¬ (∃ a b, s = a ++ u ".." ++ b).
Proof.
  unfold valid_tag. destruct (contains nl s) eqn:Hnl.
  - apply contains_nl in Hnl. split; [done|]. by intros [? _].
  - apply contains_nl_false in Hnl.
    rewrite andb_true_iff, negb_true_iff, <- not_true_iff_false, contains_spec.
    unfold re_match, tag_pattern, tag_grammar.
    rewrite sre_match_beginning, sre_match_repeat, count_match_spec.
    split.
    + intros [(n & Hn & Hlen & Hall & Hk) Hdots].
      assert (n = 1) as -> by lia.
      destruct s as [|c rest]; [simpl in Hlen; lia|].
      change (take 1 (c :: rest)) with [c] in Hall.
      change (drop 1 (c :: rest)) with rest in Hk.
      rewrite not_elem_of_cons in Hnl.
      apply class_to_end in Hk as [Hrest Hcs]; [|tauto].
      apply Forall_cons in Hall as [Hc%letter_class _].
      split_and!; [by apply not_elem_of_cons| |done].
      exists c, rest. split_and!; [done|done|lia|].
      eapply Forall_impl; [done|]. intros x. by rewrite tag_class.
    + intros (_ & (c & rest & -> & Hc & Hlen & Hall) & Hdots).
      split; [|done]. exists 1.
      change (take 1 (c :: rest)) with [c].
      change (drop 1 (c :: rest)) with rest.
      rewrite not_elem_of_cons in Hnl.
      split_and!; [lia|lia|simpl; lia| |].
      * constructor; [by apply letter_class|constructor].
      * apply class_to_end; [tauto|]. split; [lia|].
        eapply Forall_impl; [done|]. intros x. by rewrite tag_class.
Qed.

(** ** Running the stamper *)

Ltac run :=
  repeat progress
    (unfold with_lock, finally, bind, ret, raise, emit, modify, gets,
       set_trace, set_gpgs, set_fs, set_hashes_work, sync_hashes_work,
       set_extra_delay;
     cbn [gpgs extra_delay fs hashes_work hashes_work_synced trace]).

Ltac traces := rewrite <- ?app_assoc; reflexivity.

(** [Forall P l] for a closed list [l] and an arithmetic [P]. *)
Ltac forall_closed l :=
  let v := eval vm_compute in l in
  change l with v;
  repeat (apply Forall_cons; split; [lia|]); constructor.

Lemma sign_calls_app evs1 evs2 :
  sign_calls (evs1 ++ evs2) = sign_calls evs1 ++ sign_calls evs2.
Proof. apply omap_app. Qed.


Lemma clock_reads_app evs1 evs2 :
  clock_reads (evs1 ++ evs2) = clock_reads evs1 ++ clock_reads evs2.
Proof. apply omap_app. Qed.

(** A signing attempt writes nothing and reads no clock. *)
Lemma signing_events_quiet evs :
  forallb signing_event evs = true → writes evs = [] ∧ clock_reads evs = [].
Proof.
  induction evs as [|e evs IH]; [done|]. cbn [forallb].
  intros [He Hevs]%andb_true_iff. destruct (IH Hevs) as [Hw Hc].
  destruct e as [l|l| | | | | | | | | | | | | | ]; try destruct l; try done;
    (split; [exact Hw|exact Hc]).
Qed.

(** ASCII text encodes, byte for code point. *)
Lemma bytes_ascii_Some (s : pystr) :
  Forall (λ c, (c < 128)%N) s →
  ∃ b, bytes_ascii s = Some b ∧ Byte.to_N <$> b = s.
Proof.
  unfold bytes_ascii. setoid_rewrite mapM_Some.
  induction 1 as [|c s Hc _ (b & Hb & Hs)]; [by exists []|].
  destruct (Byte.of_N c) as [y|] eqn:Hy.
  - exists (y :: b). split.
    + constructor; [|done]. by apply N.ltb_lt in Hc as ->.
    + csimpl. by rewrite (Byte.to_of_N _ Hy), Hs.
  - apply Byte.of_N_None_iff in Hy. lia.
Qed.

Lemma bytes_ascii_valid_commit (commit : pystr) :
  valid_commit commit = true →
  ∃ b, bytes_ascii (commit ++ nl) = Some b ∧ Byte.to_N <$> b = commit ++ nl.
Proof.
  intros [_ Hhex]%valid_commit_lower_hex. apply bytes_ascii_Some.
  apply Forall_app. split.
  - eapply Forall_impl; [done|]. unfold lower_hex. lia.
  - repeat constructor.
Qed.

Section runs.
Variable arg : config.arg.
Variable env : environ.

Lemma log_commit_run commit b w :
  bytes_ascii (commit ++ nl) = Some b →
  log_commit arg commit w =
  (Return (),
   World (gpgs w) (extra_delay w) (fs w) (hashes_work w ++ b)
     (hashes_work w ++ b)
     (trace w ++ [Open (config.repository arg) (u "hashes.work");
                  Write b; Fsync; Close])).
Proof.
  intros Hb. unfold log_commit. rewrite Hb. run. f_equal. f_equal. traces.
Qed.

Lemma gpg_grow w :
  (Z.of_nat (length (gpgs w)) < config.number_of_gpg_agents arg)%Z →
  let home := agent_home arg (length (gpgs w)) in
  let found := lstat home w in
  gpg arg w =
  (Return (mkGPG home),
   World (gpgs w ++ [mkGPG home]) (extra_delay w)
     (if found then fs w else {[home]} ∪ fs w)
     (hashes_work w) (hashes_work_synced w)
     (trace w ++ LockAcquire gpg_serialize ::
        (if found then []
         else [SymlinkTo home (config.gnupg_home arg)])
        ++ [Print (mkGPG home); LockRelease gpg_serialize])).
Proof.
  intros Hlt%Z.ltb_lt home found. unfold gpg. run. rewrite Hlt.
  fold home. replace (lstat home _) with found by done.
  destruct found; run; f_equal; f_equal; traces.
Qed.

Lemma gpg_rotate w g rest :
  ¬ (Z.of_nat (length (gpgs w)) < config.number_of_gpg_agents arg)%Z →
  gpgs w = g :: rest →
  gpg arg w =
  (Return g,
   World (rest ++ [g]) (extra_delay w) (fs w)
     (hashes_work w) (hashes_work_synced w)
     (trace w ++ [LockAcquire gpg_serialize; Print g;
                  LockRelease gpg_serialize])).
Proof.
  intros Hge%Z.ltb_nlt Hw. unfold gpg. run. rewrite Hge, Hw. run.
  f_equal. f_equal. traces.
Qed.

Lemma gpg_empty w :
  ¬ (Z.of_nat (length (gpgs w)) < config.number_of_gpg_agents arg)%Z →
  gpgs w = [] →
  gpg arg w =
  (Raise IndexError,
   World [] (extra_delay w) (fs w)
     (hashes_work w) (hashes_work_synced w)
     (trace w ++ [LockAcquire gpg_serialize; LockRelease gpg_serialize])).
Proof.
  intros Hge%Z.ltb_nlt Hw. unfold gpg. run. rewrite Hge, Hw. run.
  f_equal. f_equal. traces.
Qed.

(** A choice of handle touches neither the log nor the clock, and
    fails on an empty pool at its cap only. *)
Lemma gpg_cases w :
  ∃ r w' evs,
    gpg arg w = (r, w')
    ∧ trace w' = trace w ++ evs
    ∧ forallb signing_event evs = true
    ∧ sign_calls evs = []
    ∧ hashes_work w' = hashes_work w
    ∧ hashes_work_synced w' = hashes_work_synced w
    ∧ extra_delay w' = extra_delay w
    ∧ ((gpgs w = [] ∧ r = Raise IndexError) ∨ ∃ g, r = Return g).
Proof.
  destruct (decide (Z.of_nat (length (gpgs w))
                    < config.number_of_gpg_agents arg)%Z) as [Hlt|Hge].
  - rewrite (gpg_grow _ Hlt). do 3 eexists. split; [done|]. cbn.
    split; [done|]. destruct (lstat _ w); split_and!; eauto.
  - destruct (list_eq_nil_dec (gpgs w)) as [Hw|Hw];
      [|destruct (gpgs w) as [|g rest] eqn:Hw'; [done|]; clear Hw;
        rewrite <- Hw' in Hge].
    + rewrite (gpg_empty _ Hge Hw). do 3 eexists. split; [done|]. cbn.
      split_and!; eauto.
    + rewrite (gpg_rotate _ _ _ Hge Hw'). do 3 eexists. split; [done|]. cbn.
      split_and!; eauto.
Qed.

Lemma limited_sign_run self now commit data w :
  let args := [u "--faked-system-time"; str_int now ++ u "!"] in
  ∃ r w' evs,
    limited_sign arg env self now commit data w = (r, w')
    ∧ trace w' = trace w ++ SemAcquire (timeout self) (sem_acquire env) :: evs
    ∧ forallb signing_event evs = true
    ∧ hashes_work w' = hashes_work w
    ∧ hashes_work_synced w' = hashes_work_synced w
    ∧ if sem_acquire env then
        (gpgs w = [] ∧ r = Raise IndexError ∧ sign_calls evs = [])
        ∨ (∃ g, sign_calls evs = [(g, data, keyid self, args)]
                ∧ r = match gpg_sign env g data (keyid self) args with
                      | Return sig => Return (Some sig)
                      | Raise e => Raise e
                      end)
      else r = Return None ∧ evs = [].
Proof.
  intros args. unfold limited_sign. fold args. run.
  destruct (sem_acquire env); [|by do 3 eexists].
  cbn [extra_delay].
  destruct (extra_delay w) as [d|]; [destruct (d =? 0)%N|].
  all: match goal with |- context [gpg arg ?W] =>
         destruct (gpg_cases W)
           as (r & w2 & evs & -> & Htr & Hev & Hsig & Hlog & Hsync & _ & Hr)
       end.
  all: cbn [gpgs trace hashes_work hashes_work_synced] in *.
  all: destruct Hr as [[Hw ->]|[g ->]];
    [|destruct (gpg_sign env g data (keyid self) args) as [sig|e] eqn:Hsign].
  all: do 3 eexists; (split; [reflexivity|]);
    cbn [gpgs trace hashes_work hashes_work_synced]; rewrite Htr.
  all: split; [rewrite <- ?app_assoc; cbn [app]; reflexivity|].
  all: unfold sign_calls in *;
    repeat progress (rewrite ?forallb_app, ?omap_app, ?Hev, ?Hsig; csimpl).
  all: split_and!; try done.
  all: first [by left|right; exists g; by rewrite Hsign].
Qed.

(** The block under the ordering lock. *)
Lemma logging_run commit b w :
  bytes_ascii (commit ++ nl) = Some b →
  with_lock serialize
    (do now <- sig_time env; log_commit arg commit >> ret now) w =
  (Return (sampled env),
   World (gpgs w) (extra_delay w) (fs w) (hashes_work w ++ b)
     (hashes_work w ++ b) (trace w ++ log_events arg env b)).
Proof.
  intros Hb. unfold sig_time. run. rewrite (log_commit_run _ _ _ Hb). run.
  unfold sampled, log_events. f_equal. f_equal. traces.
Qed.

Lemma stamp_tag_run self commit tagname w :
  valid_commit commit = true → valid_tag tagname = true →
  let body := tagobj self commit tagname (sampled env) in
  let args := [u "--faked-system-time"; str_int (sampled env) ++ u "!"] in
  ∃ b r w' evs,
    bytes_ascii (commit ++ nl) = Some b
    ∧ stamp_tag arg env self commit tagname w = (r, w')
    ∧ trace w' = trace w ++ log_events arg env b
                 ++ SemAcquire (timeout self) (sem_acquire env) :: evs
    ∧ forallb signing_event evs = true
    ∧ hashes_work w' = hashes_work w ++ b
    ∧ hashes_work_synced w' = hashes_work w ++ b
    ∧ if sem_acquire env then
        (gpgs w = [] ∧ r = Raise IndexError ∧ sign_calls evs = [])
        ∨ (∃ g, sign_calls evs = [(g, body, keyid self, args)]
                ∧ r = match gpg_sign env g body (keyid self) args with
                      | Return sig => Return (PyStr (body ++ sig))
                      | Raise e => Raise e
                      end)
      else r = Return PyNone ∧ evs = [].
Proof.
  intros Hc Ht body args.
  destruct (bytes_ascii_valid_commit _ Hc) as (b & Hb & _).
  unfold stamp_tag. rewrite Hc, Ht. cbn [andb]. unfold bind at 1.
  rewrite (logging_run _ _ _ Hb). fold body. unfold bind.
  match goal with |- context [limited_sign _ _ _ _ _ _ ?W] =>
    destruct (limited_sign_run self (sampled env) commit body W)
      as (r & w' & evs & -> & Htr & Hev & Hlog & Hsync & Hr)
  end.
  cbn [gpgs trace hashes_work hashes_work_synced] in *. fold args in Hr.
  exists b. destruct (sem_acquire env).
  - destruct Hr as [(Hw & -> & Hsig)|(g & Hsig & ->)].
    + do 3 eexists. split_and!; [done|reflexivity|..]; eauto.
      by rewrite Htr, <- app_assoc.
    + destruct (gpg_sign env g body (keyid self) args) as [sig|e] eqn:Hsign.
      all: do 3 eexists; split_and!; [done|reflexivity|..]; eauto.
      all: try by rewrite Htr, <- app_assoc.
      all: right; exists g; by rewrite Hsign.
  - destruct Hr as [-> ->]. do 3 eexists.
    split_and!; [done|reflexivity|..]; eauto.
    by rewrite Htr, <- app_assoc.
Qed.

Lemma stamp_branch_run self commit parent tree w :
  valid_commit commit = true → valid_commit tree = true →
  (∀ p, parent = Some p → valid_commit p = true) →
  let part1 := commitobj1 self commit parent tree (sampled env) in
  let part2 := commitobj2 self (strftime_gmtime env (sampled env)) in
  let args := [u "--faked-system-time"; str_int (sampled env) ++ u "!"] in
  ∃ b r w' evs,
    bytes_ascii (commit ++ nl) = Some b
    ∧ stamp_branch arg env self commit parent tree w = (r, w')
    ∧ trace w' = trace w ++ log_events arg env b
                 ++ SemAcquire (timeout self) (sem_acquire env) :: evs
    ∧ forallb signing_event evs = true
    ∧ hashes_work w' = hashes_work w ++ b
    ∧ hashes_work_synced w' = hashes_work w ++ b
    ∧ if sem_acquire env then
        (gpgs w = [] ∧ r = Raise IndexError ∧ sign_calls evs = [])
        ∨ (∃ g, sign_calls evs = [(g, part1 ++ part2, keyid self, args)]
                ∧ r = match gpg_sign env g (part1 ++ part2) (keyid self) args
                      with
                      | Return sig =>
                          if bool_decide (last (gpgsig sig) = Some LF)
                          then Return (PyStr (part1 ++ gpgsig sig ++ part2))
                          else Raise AssertionError
                      | Raise e => Raise e
                      end)
      else r = Return PyNone ∧ evs = [].
Proof.
  intros Hc Ht Hp part1 part2 args.
  destruct (bytes_ascii_valid_commit _ Hc) as (b & Hb & _).
  unfold stamp_branch. rewrite Hc, Ht. cbn [andb].
  assert (match parent with
          | Some p => valid_commit p
          | None => true
          end = true) as -> by (destruct parent; auto).
  unfold bind at 1.
  rewrite (logging_run _ _ _ Hb). fold part1 part2. unfold bind.
  match goal with |- context [limited_sign _ _ _ _ _ _ ?W] =>
    destruct (limited_sign_run self (sampled env) commit (part1 ++ part2) W)
      as (r & w' & evs & -> & Htr & Hev & Hlog & Hsync & Hr)
  end.
  cbn [gpgs trace hashes_work hashes_work_synced] in *. fold args in Hr.
  exists b. destruct (sem_acquire env).
  - destruct Hr as [(Hw & -> & Hsig)|(g & Hsig & ->)].
    + do 3 eexists. split_and!; [done|reflexivity|..]; eauto.
      by rewrite Htr, <- app_assoc.
    + destruct (gpg_sign env g (part1 ++ part2) (keyid self) args)
        as [sig|e] eqn:Hsign;
        [destruct (bool_decide (last (gpgsig sig) = Some LF)) eqn:Hlast|].
      all: do 3 eexists; split_and!; [done|reflexivity|..]; eauto.
      all: try by rewrite Htr, <- app_assoc.
      all: right; exists g; by rewrite Hsign, ?Hlast.
  - destruct Hr as [-> ->]. do 3 eexists.
    split_and!; [done|reflexivity|..]; eauto.
    by rewrite Htr, <- app_assoc.
Qed.

Lemma stamp_tag_reject self commit tagname w :
  valid_commit commit && valid_tag tagname = false →
  stamp_tag arg env self commit tagname w = (Return (PyInt 406), w).
Proof. intros H. unfold stamp_tag. by rewrite H. Qed.

Lemma stamp_branch_reject self commit parent tree w :
  valid_commit commit && valid_commit tree
    && match parent with None => true | Some p => valid_commit p end
  = false →
  stamp_branch arg env self commit parent tree w = (Return (PyInt 406), w).
Proof. intros H. unfold stamp_branch. by rewrite H. Qed.

End runs.

(** ** The pool of handles *)

Lemma u_inj (s1 s2 : string) : u s1 = u s2 → s1 = s2.
Proof.
  unfold u. intros H.
  rewrite <- (string_of_list_ascii_of_string s1),
    <- (string_of_list_ascii_of_string s2). f_equal.
  revert H. generalize (list_ascii_of_string s1) (list_ascii_of_string s2).
  induction l as [|a l IH]; intros [|b k]; try done.
  intros [= Hab Hl]. f_equal; [|by apply IH].
  by rewrite <- (ascii_N_embedding a), <- (ascii_N_embedding b), Hab.
Qed.

Section pool.
Variable arg : config.arg.

Lemma agent_home_inj i j : agent_home arg i = agent_home arg j → i = j.
Proof.
  unfold agent_home, str_int.
  intros H%app_inv_head%app_inv_head%u_inj%(inj pretty). lia.
Qed.

Lemma agent_home_fresh i : agent_home arg i ≠ config.gnupg_home arg.
Proof.
  unfold agent_home. intros H%(f_equal length).
  rewrite !length_app in H. change (u "-") with [45%N] in H.
  cbn [length] in H. lia.
Qed.

Lemma gpg_pool w r w' :
  gpg arg w = (r, w') →
  (∀ g, g ∈ gpgs w → g ∈ gpgs w')
  ∧ Z.of_nat (length (gpgs w')) =
    (if decide (Z.of_nat (length (gpgs w))
                < config.number_of_gpg_agents arg)%Z
     then Z.of_nat (length (gpgs w)) + 1 else Z.of_nat (length (gpgs w)))%Z
  ∧ (gpgs w ≠ [] → pool_ok arg (gpgs w) → pool_ok arg (gpgs w'))
  ∧ (gpgs w ≠ [] → ∃ g, r = Return g).
Proof.
  destruct (decide (Z.of_nat (length (gpgs w))
                    < config.number_of_gpg_agents arg)%Z) as [Hlt|Hge].
  - rewrite (gpg_grow _ _ Hlt). intros [= <- <-]. cbn [gpgs].
    split_and!; [set_solver|rewrite length_app; simpl; lia| |by eauto].
    intros Hne [Hnd Hin]. split.
    + apply NoDup_app. split_and!; [done| |apply NoDup_singleton].
      intros g Hg ->%list_elem_of_singleton.
      destruct (Hin _ Hg) as [[= H]|(i & Hi & [= H])].
      * by apply agent_home_fresh in H.
      * apply agent_home_inj in H. lia.
    + intros g [Hg| ->%list_elem_of_singleton]%elem_of_app;
        rewrite length_app; simpl.
      * destruct (Hin _ Hg) as [?|(i & Hi & ?)]; [by left|right].
        exists i. split; [lia|done].
      * right. exists (length (gpgs w)). split; [|done].
        destruct (gpgs w); [done|simpl; lia].
  - destruct (gpgs w) as [|g rest] eqn:Hw; rewrite <- Hw in Hge.
    + rewrite (gpg_empty _ _ Hge Hw). intros [= <- <-]. cbn [gpgs].
      split_and!; done.
    + rewrite (gpg_rotate _ _ _ _ Hge Hw). intros [= <- <-]. cbn [gpgs].
      split_and!; [set_solver|rewrite length_app; simpl; lia| |by eauto].
      intros _ [Hnd Hin]. split.
      * apply NoDup_cons in Hnd as [Hg Hnd].
        apply NoDup_app. split_and!; [done| |apply NoDup_singleton].
        by intros x Hx ->%list_elem_of_singleton.
      * intros x Hx. rewrite length_app, Nat.add_comm. apply Hin.
        set_solver.
Qed.

Lemma selections_add k1 k2 w :
  selections arg (k1 + k2) w =
  match selections arg k1 w with
  | (Return xs, w1) =>
      match selections arg k2 w1 with
      | (Return ys, w2) => (Return (xs ++ ys), w2)
      | (Raise e, w2) => (Raise e, w2)
      end
  | (Raise e, w1) => (Raise e, w1)
  end.
Proof.
  revert w. induction k1 as [|k1 IH]; intros w.
  - cbn. by destruct (selections arg k2 w) as [[ys|e] w2].
  - cbn [Nat.add selections]. unfold bind.
    destruct (gpg arg w) as [[g|e] w1]; [|done]. rewrite IH.
    destruct (selections arg k1 w1) as [[xs|e] w2]; [|done].
    unfold ret. by destruct (selections arg k2 w2) as [[ys|e] w3].
Qed.

(** Growth: [k] selections on a pool that is not empty. *)
Lemma selections_grow k w :
  gpgs w ≠ [] →
  ∃ gs w',
    selections arg k w = (Return gs, w')
    ∧ length gs = k
    ∧ Z.of_nat (length (gpgs w')) =
      (Z.of_nat (length (gpgs w))
       `max` ((Z.of_nat (length (gpgs w)) + Z.of_nat k)
              `min` config.number_of_gpg_agents arg))%Z
    ∧ (∀ g, g ∈ gpgs w → g ∈ gpgs w')
    ∧ (pool_ok arg (gpgs w) → pool_ok arg (gpgs w')).
Proof.
  revert w. induction k as [|k IH]; intros w Hne.
  - exists [], w. split_and!; auto. lia.
  - cbn [selections]. unfold bind.
    destruct (gpg arg w) as [r w1] eqn:Hgpg.
    destruct (gpg_pool _ _ _ Hgpg) as (Hsub & Hlen & Hok & Hr).
    destruct (Hr Hne) as [g ->].
    assert (gpgs w1 ≠ []) as Hne1.
    { destruct (gpgs w) as [|x ?] eqn:Hw; [done|].
      intros Hw1. specialize (Hsub x). rewrite Hw1 in Hsub.
      by apply (not_elem_of_nil x), Hsub; left. }
    destruct (IH w1 Hne1) as (gs & w' & -> & Hgs & Hlen' & Hsub' & Hok').
    exists (g :: gs), w'. split_and!; [done|simpl; lia| |by auto|by auto].
    rewrite Hlen', Hlen. case_decide; lia.
Qed.

(** Rotation: at the cap the selections walk through the pool. *)
Lemma selections_rotate l1 l2 w :
  ¬ (Z.of_nat (length (gpgs w)) < config.number_of_gpg_agents arg)%Z →
  gpgs w = l1 ++ l2 →
  ∃ w', selections arg (length l1) w = (Return l1, w')
        ∧ gpgs w' = l2 ++ l1.
Proof.
  revert l2 w. induction l1 as [|g l1 IH]; intros l2 w Hcap Hw.
  - exists w. by rewrite app_nil_r.
  - cbn [length selections]. unfold bind.
    rewrite (gpg_rotate _ _ _ _ Hcap Hw).
    match goal with |- context [selections _ _ ?W] =>
      destruct (IH (l2 ++ [g]) W) as (w' & -> & Hw')
    end.
    + cbn [gpgs]. rewrite Hw in Hcap. simpl in Hcap.
      rewrite !length_app in *. simpl. lia.
    + cbn [gpgs]. by rewrite <- app_assoc.
    + exists w'. by rewrite Hw', <- app_assoc.
Qed.

Lemma selections_two_rounds w :
  ¬ (Z.of_nat (length (gpgs w)) < config.number_of_gpg_agents arg)%Z →
  ∃ w', selections arg (2 * length (gpgs w)) w
        = (Return (gpgs w ++ gpgs w), w')
        ∧ gpgs w' = gpgs w.
Proof.
  intros Hcap. replace (2 * length (gpgs w))
    with (length (gpgs w) + length (gpgs w)) by lia.
  rewrite selections_add.
  destruct (selections_rotate (gpgs w) [] w Hcap) as (w1 & -> & Hw1);
    [by rewrite app_nil_r|].
  destruct (selections_rotate (gpgs w) [] w1) as (w2 & -> & Hw2).
  - by rewrite Hw1.
  - by rewrite Hw1, app_nil_r.
  - by exists w2.
Qed.

End pool.

(** ** Logging before signing *)







(** ** The validators *)

(** C3, as the code has it.  [valid_commit] holds exactly of the strings
    of 40 lower-case hexadecimal digits without line feed; a string of
    another length, with a character that is no hexadecimal digit of
    either case, or with a line feed, is refused. *)
Theorem valid_commit_iff (s : pystr) :
  (valid_commit s = true ↔ length s = 40 ∧ Forall lower_hex s ∧ LF ∉ s)
  ∧ (length s ≠ 40 ∨ Exists (λ c, ¬ hex_digit c) s ∨ LF ∈ s →
     valid_commit s = false).
Proof.
  assert (Forall lower_hex s → LF ∉ s) as Hnl.
  { rewrite Forall_forall. intros Hall Hin. apply Hall in Hin.
    unfold lower_hex, LF in Hin. lia. }
  split.
  - rewrite valid_commit_lower_hex. naive_solver.
  - intros H. apply not_true_is_false. rewrite valid_commit_lower_hex.
    intros [Hlen Hall]. destruct H as [?|[Hex|?]]; [done| |by apply Hnl].
    apply Exists_exists in Hex as (c & Hc & Hnot).
    rewrite Forall_forall in Hall. apply Hnot. left. auto.
Qed.

Lemma valid_commit_iff_witness :
  valid_commit tree0 = true ∧ valid_commit (u "abc") = false.
Proof.
  split.
  - apply (proj2 (proj1 (valid_commit_iff tree0))).
    split; [vm_compute; reflexivity|]. split.
    + unfold lower_hex. forall_closed tree0.
    + apply contains_nl_false. vm_compute; reflexivity.
  - apply (proj2 (valid_commit_iff (u "abc"))). left. vm_compute.
    discriminate.
Defined.

(** C3 as stated fails: forty upper-case hexadecimal digits satisfy the
    specification's predicate and are refused by the code. *)
Lemma valid_commit_refuses_upper_case :
  ¬ (valid_commit upper0 = true ↔ spec_validCommit upper0).
Proof.
  intros [_ H].
  assert (valid_commit upper0 = false) as Hcode by (vm_compute; reflexivity).
  rewrite H in Hcode; [discriminate|].
  split; [vm_compute; reflexivity|]. split.
  - unfold hex_digit, lower_hex. forall_closed upper0.
  - apply contains_nl_false. vm_compute; reflexivity.
Qed.

(** C4.  [valid_tag] holds exactly of the strings without line feed that
    match the grammar, letters taken without regard to case, and do not
    contain two dots in a row. *)
Theorem valid_tag_iff :
  (∀ s, valid_tag s = true ↔
        (LF ∉ s) ∧ tag_grammar s ∧ ¬ (∃ a b, s = a ++ u ".." ++ b))
  ∧ valid_tag (u "abc") = true
  ∧ valid_tag (u "-abc") = false
  ∧ valid_tag (u "a..b") = false
  ∧ valid_tag (u "a" ++ nl ++ u "b") = false.
Proof. split; [apply valid_tag_grammar|]. vm_compute. auto. Qed.

Lemma valid_tag_iff_witness :
  valid_tag (u "v1.0-rc_2") = true ∧ ¬ tag_grammar (u "-abc").
Proof.
  destruct valid_tag_iff as [H _]. split.
  - apply (proj2 (H _)). split; [|split].
    + apply contains_nl_false. vm_compute; reflexivity.
    + exists 118%N, (u "1.0-rc_2"). split; [vm_compute; reflexivity|].
      split; [unfold letter_ignorecase; lia|].
      split; [vm_compute; lia|].
      unfold tag_char, letter_ignorecase. forall_closed (u "1.0-rc_2").
    + rewrite <- contains_spec. vm_compute. discriminate.
  - intros Hg.
    assert (valid_tag (u "-abc") = false) as Hcode
      by (vm_compute; reflexivity).
    rewrite (proj2 (H _)) in Hcode; [discriminate|]. split; [|split].
    + apply contains_nl_false. vm_compute; reflexivity.
    + exact Hg.
    + rewrite <- contains_spec. vm_compute. discriminate.
Defined.

(** ** The text of the objects *)

Lemma str_int_inj (t1 t2 : Z) : str_int t1 = str_int t2 → t1 = t2.
Proof. unfold str_int. by intros ?%u_inj%(inj pretty). Qed.

Lemma tagobj_lines self commit tagname now :
  tagobj self commit tagname now =
  unlines [ u "object " ++ commit;
            u "type commit";
            u "tag " ++ tagname;
            u "tagger " ++ fullid self ++ u " " ++ str_int now ++ u " +0000";
            [];
            url self ++ u " tag timestamp" ].
Proof.
  unfold tagobj, unlines. cbn [mbind list_bind app]. by rewrite <- !app_assoc.
Qed.

Lemma commitobj1_lines self commit parent tree now :
  commitobj1 self commit parent tree now =
  unlines ([u "tree " ++ tree]
           ++ match parent with Some p => [u "parent " ++ p] | None => [] end
           ++ [ u "parent " ++ commit;
                u "author " ++ fullid self ++ u " " ++ str_int now
                  ++ u " +0000";
                u "committer " ++ fullid self ++ u " " ++ str_int now
                  ++ u " +0000" ]).
Proof.
  unfold commitobj1, unlines.
  destruct parent; cbn [mbind list_bind app]; by rewrite <- !app_assoc.
Qed.

Lemma drop_last_snoc (s : pystr) c : drop_last (s ++ [c]) = s.
Proof.
  unfold drop_last. rewrite length_app. cbn [length].
  replace (length s + 1 - 1) with (length s) by lia.
  by rewrite take_app_length.
Qed.

Lemma replace_app old new (s1 s2 : pystr) :
  replace old new (s1 ++ s2) = replace old new s1 ++ replace old new s2.
Proof. unfold replace. apply bind_app. Qed.

Lemma replace_absent old new (s : pystr) :
  old ∉ s → replace old new s = s.
Proof.
  unfold replace. induction s as [|c s IH]; [done|].
  intros [Hc Hs]%not_elem_of_cons. csimpl. rewrite (IH Hs).
  by destruct (N.eqb_spec c old).
Qed.

Lemma join_cons sep (l l' : pystr) ls :
  join sep (l :: l' :: ls) = l ++ sep ++ join sep (l' :: ls).
Proof. reflexivity. Qed.

Lemma replace_join new (ls : list pystr) :
  Forall (λ l, LF ∉ l) ls →
  replace LF new (join nl ls) = join new ls.
Proof.
  induction 1 as [|l ls Hl Hls IH]; [done|].
  destruct ls as [|l' ls]; [by apply replace_absent|].
  rewrite !join_cons, !replace_app, (replace_absent _ _ l Hl), IH. f_equal.
  f_equal. unfold replace, nl. csimpl. by rewrite app_nil_r.
Qed.

Lemma gpgsig_trailing (body : pystr) :
  gpgsig (body ++ nl) = u "gpgsig " ++ replace LF (nl ++ u " ") body ++ nl.
Proof.
  unfold gpgsig. rewrite replace_app.
  change (replace LF (nl ++ u " ") nl) with (nl ++ [32%N]).
  by rewrite !app_assoc, drop_last_snoc.
Qed.

(** C8.  For a valid tag request that reaches the signer, the body is
    the six lines of a git tag object with the sampled time as tagger
    time; the signer is called once, on exactly this body; and the text
    returned is the body followed by the signature text as it is. *)
Theorem tag_object_is_body_then_signature arg env self commit tagname w :
  valid_commit commit = true → valid_tag tagname = true →
  sem_acquire env = true → gpgs w ≠ [] →
  let body :=
    unlines [ u "object " ++ commit;
              u "type commit";
              u "tag " ++ tagname;
              u "tagger " ++ fullid self ++ u " " ++ str_int (sampled env)
                ++ u " +0000";
              [];
              url self ++ u " tag timestamp" ] in
  let args := [u "--faked-system-time"; str_int (sampled env) ++ u "!"] in
  ∃ g w' evs,
    trace w' = trace w ++ evs
    ∧ sign_calls evs = [(g, body, keyid self, args)]
    ∧ stamp_tag arg env self commit tagname w =
      (match gpg_sign env g body (keyid self) args with
       | Return sig => Return (PyStr (body ++ sig))
       | Raise e => Raise e
       end, w').
Proof.
  intros Hc Ht Hsem Hne body args.
  destruct (stamp_tag_run arg env self commit tagname w Hc Ht)
    as (b & r & w' & evs & Hb & Hrun & Htr & Hev & _ & _ & Hr).
  rewrite Hsem in Hr. destruct Hr as [(? & _)|(g & Hsig & ->)]; [done|].
  rewrite tagobj_lines in Hsig, Hrun. exists g, w'. eexists.
  split_and!; [done| |done].
  rewrite sign_calls_app. by destruct (signing_events_quiet _ Hev).
Qed.

Lemma tag_object_is_body_then_signature_witness :
  (stamp_tag arg0 env0 self0 commit0 (u "rel1") w0).1 =
  Return (PyStr (
    u "object aaaaaaaaaaaaaaaaaaaaaaaaaaaaaaaaaaaaaaaa" ++ nl ++
    u "type commit" ++ nl ++
    u "tag rel1" ++ nl ++
    u "tagger Alice <alice@example.com> 1577836800 +0000" ++ nl ++
    nl ++
    u "https://example.org tag timestamp" ++ nl ++
    u "SIGLINE1" ++ nl ++ u "SIGLINE2" ++ nl)).
Proof.
  destruct (tag_object_is_body_then_signature
              arg0 env0 self0 commit0 (u "rel1") w0)
    as (g & w' & evs & _ & _ & Hrun);
    [vm_compute; reflexivity..|discriminate|].
  rewrite Hrun. vm_compute. reflexivity.
Defined.

(** C5, as the code has it.  For a valid branch request the first
    section is the [tree] line, a [parent] line for the parent if one is
    given, a [parent] line for the commit being stamped in every case,
    and the [author] and [committer] lines with the sampled time: two
    parent lines with a parent, one without.  The signer is handed a
    text that starts with this section, and so does every text
    returned. *)
Theorem commit_first_section arg env self commit parent tree w :
  valid_branch commit parent tree = true →
  let part1 :=
    unlines ([u "tree " ++ tree]
             ++ match parent with
                | Some p => [u "parent " ++ p]
                | None => []
                end
             ++ [ u "parent " ++ commit;
                  u "author " ++ fullid self ++ u " "
                    ++ str_int (sampled env) ++ u " +0000";
                  u "committer " ++ fullid self ++ u " "
                    ++ str_int (sampled env) ++ u " +0000" ]) in
  ∃ r w' evs,
    stamp_branch arg env self commit parent tree w = (r, w')
    ∧ trace w' = trace w ++ evs
    ∧ (sem_acquire env = true → gpgs w ≠ [] →
       ∃ g rest k a, sign_calls evs = [(g, part1 ++ rest, k, a)])
    ∧ (∀ g d k a, (g, d, k, a) ∈ sign_calls evs → ∃ rest, d = part1 ++ rest)
    ∧ (∀ x, r = Return (PyStr x) → ∃ rest, x = part1 ++ rest).
Proof.
  intros [[Hc Ht]%andb_true_iff Hp]%andb_true_iff part1.
  destruct (stamp_branch_run arg env self commit parent tree w Hc Ht)
    as (b & r & w' & evs & Hb & Hrun & Htr & Hev & _ & _ & Hr).
  { by intros p ->. }
  rewrite commitobj1_lines in Hr. fold part1 in Hr.
  exists r, w',
    (log_events arg env b
     ++ SemAcquire (timeout self) (sem_acquire env) :: evs).
  assert (sign_calls (log_events arg env b
            ++ SemAcquire (timeout self) (sem_acquire env) :: evs)
          = sign_calls evs) as -> by reflexivity.
  split_and!; [done|done|..].
  - intros Hsem Hne. rewrite Hsem in Hr.
    destruct Hr as [(? & _)|(g & Hsig & _)]; [done|]. eauto.
  - intros g d k a Hin. destruct (sem_acquire env).
    + destruct Hr as [(_ & _ & Hsig)|(g' & Hsig & _)]; rewrite Hsig in Hin.
      * by apply elem_of_nil in Hin.
      * apply list_elem_of_singleton in Hin as [= -> -> -> ->]. eauto.
    + destruct Hr as [_ ->]. by apply elem_of_nil in Hin.
  - intros x ->. destruct (sem_acquire env).
    + destruct Hr as [(_ & [=] & _)|(g & _ & Hx)].
      destruct (gpg_sign env g _ _ _) as [sig|]; [|done].
      case_bool_decide; [|done]. injection Hx as ->. eauto.
    + by destruct Hr as [[=] _].
Qed.

Lemma commit_first_section_witness :
  ∃ rest,
    (stamp_branch arg0 env0 self0 commit0 None tree0 w0).1 =
    Return (PyStr (
      u "tree 0123456789abcdef0123456789abcdef01234567" ++ nl ++
      u "parent aaaaaaaaaaaaaaaaaaaaaaaaaaaaaaaaaaaaaaaa" ++ nl ++
      u "author Alice <alice@example.com> 1577836800 +0000" ++ nl ++
      u "committer Alice <alice@example.com> 1577836800 +0000" ++ nl ++
      rest)).
Proof.
  destruct (commit_first_section arg0 env0 self0 commit0 None tree0 w0)
    as (r & w' & evs & Hrun & _ & _ & _ & Hx); [vm_compute; reflexivity|].
  rewrite Hrun. vm_compute in Hrun. injection Hrun as <- <-.
  destruct (Hx _ eq_refl) as [rest Hrest]. exists rest.
  vm_compute in Hrest. vm_compute. by rewrite Hrest.
Defined.

(** C5 as stated fails: the object returned for a root commit, a branch
    request without parent, has a [parent] line. *)
Lemma root_commit_has_parent_line :
  ¬ (∀ x w',
       stamp_branch arg0 env0 self0 commit0 None tree0 w0
       = (Return (PyStr x), w') →
       has_line_with (u "parent ") x = false).
Proof.
  intros H.
  destruct (stamp_branch arg0 env0 self0 commit0 None tree0 w0)
    as [r w'] eqn:Hrun.
  vm_compute in Hrun. injection Hrun as <- <-.
  specialize (H _ _ eq_refl). vm_compute in H. discriminate.
Qed.

(** C7.  The header made of a signature text that ends in a line feed is
    ['gpgsig '], the text with a space put after every line feed inside
    it, and the final line feed as it was; line by line, the lines of
    the signature joined by line feed and space.  An accepted branch
    request whose signer answers with such a text returns the first
    section, the header and the second section, in this order. *)
Theorem gpgsig_header_between_sections arg env self commit parent tree w :
  (∀ body,
     gpgsig (body ++ nl) = u "gpgsig " ++ replace LF (nl ++ u " ") body ++ nl)
  ∧ (∀ ls,
       Forall (λ l, LF ∉ l) ls →
       gpgsig (join nl ls ++ nl) = u "gpgsig " ++ join (nl ++ u " ") ls ++ nl)
  ∧ gpgsig (u "SIGLINE1" ++ nl ++ u "SIGLINE2" ++ nl)
    = u "gpgsig SIGLINE1" ++ nl ++ u " SIGLINE2" ++ nl
  ∧ (valid_branch commit parent tree = true →
     sem_acquire env = true → gpgs w ≠ [] →
     let part1 := commitobj1 self commit parent tree (sampled env) in
     let part2 := commitobj2 self (strftime_gmtime env (sampled env)) in
     let args := [u "--faked-system-time"; str_int (sampled env) ++ u "!"] in
     ∃ g r w' evs,
       stamp_branch arg env self commit parent tree w = (r, w')
       ∧ trace w' = trace w ++ evs
       ∧ sign_calls evs = [(g, part1 ++ part2, keyid self, args)]
       ∧ ∀ body,
           gpg_sign env g (part1 ++ part2) (keyid self) args
           = Return (body ++ nl) →
           r = Return (PyStr (part1
                 ++ (u "gpgsig " ++ replace LF (nl ++ u " ") body ++ nl)
                 ++ part2))).
Proof.
  split_and!.
  - apply gpgsig_trailing.
  - intros ls Hls. by rewrite gpgsig_trailing, replace_join.
  - vm_compute. reflexivity.
  - intros [[Hc Ht]%andb_true_iff Hp]%andb_true_iff Hsem Hne part1 part2 args.
    destruct (stamp_branch_run arg env self commit parent tree w Hc Ht)
      as (b & r & w' & evs & _ & Hrun & Htr & _ & _ & _ & Hr).
    { by intros p ->. }
    rewrite Hsem in Hr. destruct Hr as [(? & _)|(g & Hcalls & ->)]; [done|].
    exists g. do 2 eexists.
    exists (log_events arg env b
            ++ SemAcquire (timeout self) (sem_acquire env) :: evs).
    split_and!; [done|done|exact Hcalls|].
    intros body Hsig. fold part1 part2 args. rewrite Hsig, gpgsig_trailing.
    rewrite bool_decide_true; [done|].
    unfold nl at 2. by rewrite !app_assoc, last_snoc.
Qed.

Lemma gpgsig_header_between_sections_witness :
  (stamp_branch arg0 env0 self0 commit0 (Some tree0) tree0 w0).1 =
  Return (PyStr (
    u "tree 0123456789abcdef0123456789abcdef01234567" ++ nl ++
    u "parent 0123456789abcdef0123456789abcdef01234567" ++ nl ++
    u "parent aaaaaaaaaaaaaaaaaaaaaaaaaaaaaaaaaaaaaaaa" ++ nl ++
    u "author Alice <alice@example.com> 1577836800 +0000" ++ nl ++
    u "committer Alice <alice@example.com> 1577836800 +0000" ++ nl ++
    u "gpgsig SIGLINE1" ++ nl ++
    u " SIGLINE2" ++ nl ++
    nl ++
    u "https://example.org branch timestamp 2020-01-01 00:00:00 UTC" ++ nl)).
Proof.
  destruct (gpgsig_header_between_sections
              arg0 env0 self0 commit0 (Some tree0) tree0 w0)
    as (_ & _ & _ & H).
  destruct H as (g & r & w' & evs & Hrun & _ & _ & Hr);
    [vm_compute; reflexivity..|discriminate|].
  rewrite Hrun. cbn [fst].
  rewrite (Hr (u "SIGLINE1" ++ nl ++ u "SIGLINE2"));
    vm_compute; reflexivity.
Defined.

(** ** One timestamp *)

Lemma tagobj_time_line self commit tagname now :
  ∃ pre post,
    tagobj self commit tagname now
    = pre ++ time_line "tagger " self now ++ post.
Proof.
  exists (u "object " ++ commit ++ nl ++ u "type commit" ++ nl
          ++ u "tag " ++ tagname ++ nl),
    (nl ++ url self ++ u " tag timestamp" ++ nl).
  unfold tagobj, time_line. by rewrite <- !app_assoc.
Qed.

Lemma commitobj1_time_lines self commit parent tree now :
  ∃ pre,
    commitobj1 self commit parent tree now
    = pre ++ time_line "author " self now ++ time_line "committer " self now.
Proof.
  unfold commitobj1, time_line. destruct parent as [p|].
  - exists (u "tree " ++ tree ++ nl ++ u "parent " ++ p ++ nl
            ++ u "parent " ++ commit ++ nl). by rewrite <- !app_assoc.
  - exists (u "tree " ++ tree ++ nl ++ u "parent " ++ commit ++ nl).
    by rewrite <- !app_assoc.
Qed.

Lemma app3_assoc (a b c d : pystr) :
  (a ++ b ++ c) ++ d = a ++ b ++ c ++ d.
Proof. by rewrite <- !app_assoc. Qed.

Lemma Return_PyStr_inj x y : Return (PyStr x) = Return (PyStr y) → x = y.
Proof. by intros [= ->]. Qed.

(** C9.  An accepted request reads the clock once, inside the block
    under the ordering lock.  The value sampled there is the time in
    the tagger line (the author and committer lines) of the text handed
    to the signer and of the text returned, and it is the faked system
    time of every call of the signer; a request that gets its permit,
    with a handle in the pool, does call the signer, once, on that text
    and with that time; equal decimal texts are equal times. *)
Theorem one_time_for_object_and_signature arg env self commit w :
  let now := sampled env in
  let args := [u "--faked-system-time"; str_int now ++ u "!"] in
  (∀ tagname,
     valid_commit commit = true → valid_tag tagname = true →
     ∃ b r w' rest,
       stamp_tag arg env self commit tagname w = (r, w')
       ∧ trace w' = trace w ++ log_events arg env b ++ rest
       ∧ clock_reads (log_events arg env b ++ rest) = [time_time env]
       ∧ (sem_acquire env = true → gpgs w ≠ [] →
          ∃ g, sign_calls rest
               = [(g, tagobj self commit tagname now, keyid self, args)])
       ∧ (∀ g d k a, (g, d, k, a) ∈ sign_calls rest →
            a = args
            ∧ ∃ pre post, d = pre ++ time_line "tagger " self now ++ post)
       ∧ (∀ x, r = Return (PyStr x) →
            ∃ pre post, x = pre ++ time_line "tagger " self now ++ post))
  ∧ (∀ parent tree,
       valid_branch commit parent tree = true →
       ∃ b r w' rest,
         stamp_branch arg env self commit parent tree w = (r, w')
         ∧ trace w' = trace w ++ log_events arg env b ++ rest
         ∧ clock_reads (log_events arg env b ++ rest) = [time_time env]
         ∧ (sem_acquire env = true → gpgs w ≠ [] →
            ∃ g, sign_calls rest
                 = [(g, commitobj1 self commit parent tree now
                        ++ commitobj2 self (strftime_gmtime env now),
                     keyid self, args)])
         ∧ (∀ g d k a, (g, d, k, a) ∈ sign_calls rest →
              a = args
              ∧ ∃ pre post,
                  d = pre ++ time_line "author " self now
                      ++ time_line "committer " self now ++ post)
         ∧ (∀ x, r = Return (PyStr x) →
              ∃ pre post,
                x = pre ++ time_line "author " self now
                    ++ time_line "committer " self now ++ post))
  ∧ (∀ t, str_int t = str_int now → t = now).
Proof.
  cbv zeta. split_and!; [| |intros t; apply str_int_inj].
  - intros tagname Hc Ht.
    destruct (stamp_tag_run arg env self commit tagname w Hc Ht)
      as (b & r & w' & evs & _ & Hrun & Htr & Hev & _ & _ & Hr).
    destruct (tagobj_time_line self commit tagname (sampled env))
      as (pre & post & Hbody).
    exists b, r, w', (SemAcquire (timeout self) (sem_acquire env) :: evs).
    split_and!; [done|done|..].
    + rewrite clock_reads_app.
      destruct (signing_events_quiet _ Hev) as [_ Hq].
      change (clock_reads (SemAcquire (timeout self) (sem_acquire env) :: evs))
        with (clock_reads evs). by rewrite Hq.
    + change (sign_calls (SemAcquire (timeout self) (sem_acquire env) :: evs))
        with (sign_calls evs).
      intros Hsem Hne. rewrite Hsem in Hr.
      destruct Hr as [(Hnil & _)|(g & Hsig & _)]; [done|]. by exists g.
    + change (sign_calls (SemAcquire (timeout self) (sem_acquire env) :: evs))
        with (sign_calls evs).
      intros g d k a Hin. destruct (sem_acquire env).
      * destruct Hr as [(_ & _ & Hsig)|(g' & Hsig & _)]; rewrite Hsig in Hin.
        -- by apply elem_of_nil in Hin.
        -- apply list_elem_of_singleton in Hin as [= -> -> -> ->]. eauto.
      * destruct Hr as [_ ->]. by apply elem_of_nil in Hin.
    + intros x ->. destruct (sem_acquire env).
      * destruct Hr as [(_ & [=] & _)|(g & _ & Hx)].
        destruct (gpg_sign env g _ _ _) as [sig|]; [|done].
        apply Return_PyStr_inj in Hx as ->. exists pre, (post ++ sig).
        rewrite Hbody. apply app3_assoc.
      * by destruct Hr as [[=] _].
  - intros parent tree [[Hc Ht]%andb_true_iff Hp]%andb_true_iff.
    destruct (stamp_branch_run arg env self commit parent tree w Hc Ht)
      as (b & r & w' & evs & _ & Hrun & Htr & Hev & _ & _ & Hr).
    { by intros p ->. }
    destruct (commitobj1_time_lines self commit parent tree (sampled env))
      as (pre & Hpart1).
    exists b, r, w', (SemAcquire (timeout self) (sem_acquire env) :: evs).
    split_and!; [done|done|..].
    + rewrite clock_reads_app.
      destruct (signing_events_quiet _ Hev) as [_ Hq].
      change (clock_reads (SemAcquire (timeout self) (sem_acquire env) :: evs))
        with (clock_reads evs). by rewrite Hq.
    + change (sign_calls (SemAcquire (timeout self) (sem_acquire env) :: evs))
        with (sign_calls evs).
      intros Hsem Hne. rewrite Hsem in Hr.
      destruct Hr as [(Hnil & _)|(g & Hsig & _)]; [done|]. by exists g.
    + change (sign_calls (SemAcquire (timeout self) (sem_acquire env) :: evs))
        with (sign_calls evs).
      intros g d k a Hin. destruct (sem_acquire env).
      * destruct Hr as [(_ & _ & Hsig)|(g' & Hsig & _)]; rewrite Hsig in Hin.
        -- by apply elem_of_nil in Hin.
        -- apply list_elem_of_singleton in Hin as [= -> -> -> ->].
           split; [done|]. eexists pre, _.
           rewrite Hpart1. apply app3_assoc.
      * destruct Hr as [_ ->]. by apply elem_of_nil in Hin.
    + intros x ->. destruct (sem_acquire env).
      * destruct Hr as [(_ & [=] & _)|(g & _ & Hx)].
        destruct (gpg_sign env g _ _ _) as [sig|]; [|done].
        case_bool_decide; [|done]. apply Return_PyStr_inj in Hx as ->.
        eexists pre, _. rewrite Hpart1. apply app3_assoc.
      * by destruct Hr as [[=] _].
Qed.

Lemma one_time_for_object_and_signature_witness :
  ∃ b r w' rest g,
    stamp_tag arg0 env0 self0 commit0 (u "rel1") w0 = (r, w')
    ∧ trace w' = trace w0 ++ log_events arg0 env0 b ++ rest
    ∧ clock_reads (log_events arg0 env0 b ++ rest) = [1600000000%Z]
    ∧ sampled env0 = 1577836800%Z
    ∧ sign_calls rest
      = [(g, tagobj self0 commit0 (u "rel1") 1577836800, keyid self0,
          [u "--faked-system-time"; u "1577836800!"])].
Proof.
  pose proof (one_time_for_object_and_signature arg0 env0 self0 commit0 w0)
    as H.
  cbv zeta in H. destruct H as [H _].
  destruct (H (u "rel1"))
    as (b & r & w' & rest & Hrun & Htr & Hclock & Hcall & _);
    [vm_compute; reflexivity..|].
  destruct Hcall as [g Hg]; [reflexivity|vm_compute; discriminate|].
  exists b, r, w', rest, g. split_and!; [done|done|done|reflexivity|].
  rewrite Hg. reflexivity.
Defined.

(** ** The lines of the log *)










(** ** Round robin *)

(** C6, as the code has it.  The pool holds one handle from
    construction on.  With at least one agent configured, [k]
    selections on the fresh pool all return a handle and leave
    [min (k + 1) n] handles, all different, the first one among them;
    once the pool is full its size stays, every selection returns the
    handle at the front and moves it to the back, and twice as many
    selections as there are handles return the pool twice over, in
    order, and leave it as it was.  No selection removes a handle. *)
Theorem pool_grows_to_cap_then_rotates arg w :
  (1 ≤ config.number_of_gpg_agents arg)%Z →
  gpgs w = [mkGPG (config.gnupg_home arg)] →
  (∀ k,
     ∃ gs w',
       selections arg k w = (Return gs, w')
       ∧ length gs = k
       ∧ Z.of_nat (length (gpgs w'))
         = ((Z.of_nat k + 1) `min` config.number_of_gpg_agents arg)%Z
       ∧ NoDup (gpgs w')
       ∧ mkGPG (config.gnupg_home arg) ∈ gpgs w'
       ∧ ((config.number_of_gpg_agents arg ≤ Z.of_nat k + 1)%Z →
          (∀ g rest,
             gpgs w' = g :: rest →
             ∃ w'', gpg arg w' = (Return g, w'') ∧ gpgs w'' = rest ++ [g])
          ∧ ∃ w'',
              selections arg (2 * length (gpgs w')) w'
              = (Return (gpgs w' ++ gpgs w'), w'')
              ∧ gpgs w'' = gpgs w'))
  ∧ (∀ w1 g, g ∈ gpgs w1 → g ∈ gpgs (gpg arg w1).2).
Proof.
  intros Hn Hw. split.
  - intros k.
    destruct (selections_grow arg k w) as (gs & w' & Hrun & Hgs & Hlen & Hsub & Hok).
    { by rewrite Hw. }
    rewrite Hw in Hlen, Hok. cbn [length] in Hlen.
    destruct Hok as [Hnd _].
    { split; [apply NoDup_singleton|]. intros g ->%list_elem_of_singleton.
      by left. }
    exists gs, w'. split_and!; [done|done|lia|done| |].
    + apply Hsub. rewrite Hw. by left.
    + intros Hcap.
      assert (¬ (Z.of_nat (length (gpgs w'))
                 < config.number_of_gpg_agents arg)%Z) as Hfull by lia.
      split.
      * intros g rest Hw'. rewrite (gpg_rotate _ _ _ _ Hfull Hw'). eauto.
      * by apply selections_two_rounds.
  - intros w1 g Hg. destruct (gpg arg w1) as [r w2] eqn:Hgpg.
    by apply (gpg_pool _ _ _ _ Hgpg).
Qed.

Lemma pool_grows_to_cap_then_rotates_witness :
  ∃ gs w',
    selections arg0 7 w0 = (Return gs, w')
    ∧ length gs = 7
    ∧ length (gpgs w') = 3.
Proof.
  destruct (pool_grows_to_cap_then_rotates arg0 w0) as [H _];
    [vm_compute; discriminate|reflexivity|].
  destruct (H 7) as (gs & w' & Hrun & Hgs & Hlen & _).
  exists gs, w'. split_and!; [done|done|].
  change (config.number_of_gpg_agents arg0) with 3%Z in Hlen. lia.
Defined.

(** C6 as stated fails, whether the selections are counted from the
    pool as construction first makes it or from the end of [__init__]:
    with three agents configured, one selection on the first gives two
    handles, and the second has three handles before any request. *)
Lemma handles_exceed_selections :
  ¬ ((∀ k, (Z.of_nat k ≤ config.number_of_gpg_agents arg0)%Z →
           handles_after w0 k = k)
     ∨ (∀ k, (Z.of_nat k ≤ config.number_of_gpg_agents arg0)%Z →
             handles_after (init arg0 env0 w_boot).2 k = k)).
Proof.
  intros [H|H].
  - specialize (H 1). vm_compute in H.
    assert (2 = 1) as Habs by (apply H; discriminate). discriminate.
  - specialize (H 0). vm_compute in H.
    assert (3 = 0) as Habs by (apply H; discriminate). discriminate.
Qed.

(** * Further properties of the code *)

(** ** The validators *)

(** X1.  The check for a line feed that both validators make before
    they run their pattern is what refuses a trailing line feed: an
    accepted commit id or tag name followed by a line feed still
    matches the pattern, since [$] also matches before a final line
    feed, and is refused by the validator. *)
Theorem line_feed_guard :
  (∀ commit,
     valid_commit commit = true →
     re_match commit_pattern (commit ++ nl) false = true
     ∧ valid_commit (commit ++ nl) = false)
  ∧ (∀ tag,
       valid_tag tag = true →
       re_match tag_pattern (tag ++ nl) true = true
       ∧ valid_tag (tag ++ nl) = false).
Proof.
  assert (∀ s : pystr, contains nl (s ++ nl) = true) as Hguard.
  { intros s. apply contains_nl, elem_of_app. right. by left. }
  split.
  - intros commit [Hlen Hhex]%valid_commit_lower_hex. split.
    + unfold re_match, commit_pattern.
      rewrite sre_match_beginning, sre_match_repeat, count_match_spec.
      exists 40. rewrite <- Hlen, take_app_length, drop_app_length.
      rewrite length_app. split_and!; [lia|lia|lia| |done].
      eapply Forall_impl; [done|]. intros c. by rewrite hex_class.
    + unfold valid_commit. by rewrite Hguard.
  - intros tag (Hnl & (c & rest & -> & Hc & Hlen & Hrest) & _)%valid_tag_grammar.
    split.
    + unfold re_match, tag_pattern.
      rewrite sre_match_beginning, sre_match_repeat, count_match_spec.
      exists 1. change (take 1 ((c :: rest) ++ nl)) with [c].
      change (drop 1 ((c :: rest) ++ nl)) with (rest ++ nl).
      split_and!; [lia|lia|simpl; lia| |].
      * constructor; [by apply letter_class|constructor].
      * rewrite sre_match_repeat, count_match_spec. exists (length rest).
        rewrite take_app_length, drop_app_length, length_app.
        split_and!; [lia|lia|lia| |done].
        eapply Forall_impl; [done|]. intros x. by rewrite tag_class.
    + unfold valid_tag. by rewrite Hguard.
Qed.

Lemma line_feed_guard_witness :
  re_match commit_pattern (commit0 ++ nl) false = true
  ∧ valid_commit (commit0 ++ nl) = false
  ∧ re_match tag_pattern (u "rel1" ++ nl) true = true
  ∧ valid_tag (u "rel1" ++ nl) = false.
Proof.
  destruct line_feed_guard as [Hc Ht].
  destruct (Hc commit0) as [? ?]; [vm_compute; reflexivity|].
  destruct (Ht (u "rel1")) as [? ?]; [vm_compute; reflexivity|].
  auto.
Defined.

(** X2.  An accepted tag name has between 1 and 100 characters, each
    of them ASCII or one of the four letters that the case folding of
    [re] adds; and on ASCII input [valid_tag] is exactly the grammar
    [[A-Za-z][-._A-Za-z0-9]{0,99}] without two dots in a row. *)
Theorem valid_tag_ascii (s : pystr) :
  (valid_tag s = true →
   1 ≤ length s ≤ 100
   ∧ Forall (λ c, (c < 128)%N ∨ folded_letter c) s)
  ∧ (Forall (λ c, (c < 128)%N) s →
     (valid_tag s = true ↔
      ascii_tag_grammar s ∧ ¬ (∃ a b, s = a ++ u ".." ++ b))).
Proof.
  assert (∀ c, letter_ignorecase c ↔ ascii_letter c ∨ folded_letter c)
    as Hletter.
  { intros c. unfold letter_ignorecase, ascii_letter, folded_letter. tauto. }
  assert (∀ c, tag_char c → (c < 128)%N ∨ folded_letter c) as Hchar.
  { intros c. unfold tag_char. rewrite Hletter.
    unfold ascii_letter, folded_letter. lia. }
  split.
  - intros (_ & (c & rest & -> & Hc & Hlen & Hrest) & _)%valid_tag_grammar.
    split; [simpl; lia|]. constructor.
    + apply Hchar. by left.
    + eapply Forall_impl; [done|]. auto.
  - intros Hascii. rewrite valid_tag_grammar. split.
    + intros (_ & (c & rest & -> & Hc & Hlen & Hrest) & Hdots).
      split; [|done]. apply Forall_cons in Hascii as [Hc7 Hrest7].
      exists c, rest. split_and!; [done| |done|].
      * apply Hletter in Hc as [?|Hf]; [done|].
        unfold folded_letter in Hf. lia.
      * apply Forall_forall. intros x Hx.
        rewrite Forall_forall in Hrest, Hrest7.
        specialize (Hrest x Hx). specialize (Hrest7 x Hx).
        unfold tag_char, ascii_tag_char in *.
        rewrite Hletter in Hrest.
        unfold folded_letter, ascii_letter in *. lia.
    + intros [(c & rest & -> & Hc & Hlen & Hrest) Hdots]. split_and!; [| |done].
      * intros Hall. rewrite Forall_forall in Hrest.
        apply elem_of_cons in Hall as [Heq|Hin].
        -- unfold ascii_letter in Hc. unfold LF in Heq. lia.
        -- apply Hrest in Hin. unfold ascii_tag_char, ascii_letter, LF in Hin.
           lia.
      * exists c, rest. split_and!; [done| |done|].
        -- apply Hletter. by left.
        -- eapply Forall_impl; [done|]. intros x.
           unfold ascii_tag_char, tag_char. rewrite Hletter. tauto.
Qed.

Lemma valid_tag_ascii_witness :
  1 ≤ length (u "v1.0-rc_2") ≤ 100 ∧ ascii_tag_grammar (u "v1.0-rc_2").
Proof.
  destruct (valid_tag_ascii (u "v1.0-rc_2")) as [Hlen Hiff]. split.
  - apply Hlen. vm_compute. reflexivity.
  - apply Hiff; [|vm_compute; reflexivity].
    forall_closed (u "v1.0-rc_2").
Defined.

(** ** The log file *)



(** ** Permits and locks *)

Lemma lock_walk_app held evs1 evs2 :
  lock_walk held (evs1 ++ evs2)
  = lock_walk held evs1 ≫= λ held', lock_walk held' evs2.
Proof.
  revert held. induction evs1 as [|e evs1 IH]; intros held; [done|].
  cbn [app lock_walk].
  destruct e as [l|l| | | | | | | | | | | | | | ], held as [[]|];
    try done; try apply IH.
  all: destruct l; cbn [lock_eqb]; try done; apply IH.
Qed.

Lemma pool_events_no_sem evs :
  forallb pool_event evs = true → forallb (negb ∘ sem_event) evs = true.
Proof.
  induction evs as [|e evs IH]; [done|]. cbn [forallb].
  intros [He Hevs]%andb_true_iff. rewrite (IH Hevs), andb_true_r.
  by destruct e.
Qed.

(** A choice of handle keeps to its lock, also when it fails. *)
Lemma gpg_events arg w :
  ∃ r w' evs,
    gpg arg w = (r, w')
    ∧ trace w' = trace w ++ evs
    ∧ forallb pool_event evs = true
    ∧ lock_walk None evs = Some None.
Proof.
  destruct (decide (Z.of_nat (length (gpgs w))
                    < config.number_of_gpg_agents arg)%Z) as [Hlt|Hge].
  - rewrite (gpg_grow _ _ Hlt). do 3 eexists. split; [done|]. cbn [trace].
    split; [done|]. by destruct (lstat _ w).
  - destruct (list_eq_nil_dec (gpgs w)) as [Hw|Hw];
      [|destruct (gpgs w) as [|g rest] eqn:Hw'; [done|]; clear Hw;
        rewrite <- Hw' in Hge].
    + rewrite (gpg_empty _ _ Hge Hw). do 3 eexists. split; [done|]. cbn.
      split_and!; eauto.
    + rewrite (gpg_rotate _ _ _ _ Hge Hw'). do 3 eexists. split; [done|].
      cbn. split_and!; eauto.
Qed.

Lemma limited_sign_events arg env self now commit data w :
  ∃ mid,
    trace (limited_sign arg env self now commit data w).2
    = trace w ++ SemAcquire (timeout self) (sem_acquire env)
                 :: (if sem_acquire env then mid ++ [SemRelease] else [])
    ∧ forallb (negb ∘ sem_event) mid = true
    ∧ lock_walk None mid = Some None
    ∧ (sem_acquire env = false →
       (limited_sign arg env self now commit data w).1 = Return None).
Proof.
  unfold limited_sign. run.
  destruct (sem_acquire env); [|by exists []].
  cbn [extra_delay].
  destruct (extra_delay w) as [d|]; [destruct (d =? 0)%N|].
  all: match goal with |- context [gpg ?A ?W] =>
         destruct (gpg_events A W)
           as (r & w2 & evs & -> & Htr & Hev%pool_events_no_sem & Hlock)
       end.
  all: cbn [gpgs trace hashes_work hashes_work_synced] in *.
  all: destruct r as [g|e];
    [match goal with |- context [gpg_sign ?E g ?D ?K ?A] =>
       destruct (gpg_sign E g D K A)
     end|].
  all: cbn [snd trace]; rewrite Htr, <- ?app_assoc; cbn [app].
  all: match goal with
       | |- ∃ mid, _ ++ _ :: Sleep ?d :: ?evs ++ [?s; SemRelease] = _ ∧ _ =>
           exists (Sleep d :: evs ++ [s])
       | |- ∃ mid, _ ++ _ :: Sleep ?d :: ?evs ++ [SemRelease] = _ ∧ _ =>
           exists (Sleep d :: evs)
       | |- ∃ mid, _ ++ _ :: ?evs ++ [?s; SemRelease] = _ ∧ _ =>
           exists (evs ++ [s])
       | |- ∃ mid, _ ++ _ :: ?evs ++ [SemRelease] = _ ∧ _ =>
           exists evs
       end.
  all: split; [cbn [app]; rewrite <- ?app_assoc; reflexivity|].
  all: cbn [forallb lock_walk];
    rewrite ?forallb_app, ?lock_walk_app, ?Hev, ?Hlock.
  all: split_and!; done.
Qed.

Lemma stamp_tag_world arg env self commit tagname w b :
  valid_commit commit = true → valid_tag tagname = true →
  bytes_ascii (commit ++ nl) = Some b →
  (stamp_tag arg env self commit tagname w).2 =
  (limited_sign arg env self (sampled env) commit
     (tagobj self commit tagname (sampled env)) (logged arg env b w)).2.
Proof.
  intros Hc Ht Hb. unfold stamp_tag. rewrite Hc, Ht. cbn [andb].
  unfold bind at 1. rewrite (logging_run _ _ _ _ _ Hb). unfold bind.
  fold (logged arg env b w).
  by destruct (limited_sign _ _ _ _ _ _ _) as [[[sig|]|e] w'].
Qed.

Lemma stamp_branch_world arg env self commit parent tree w b :
  valid_branch commit parent tree = true →
  bytes_ascii (commit ++ nl) = Some b →
  (stamp_branch arg env self commit parent tree w).2 =
  (limited_sign arg env self (sampled env) commit
     (commitobj1 self commit parent tree (sampled env)
      ++ commitobj2 self (strftime_gmtime env (sampled env)))
     (logged arg env b w)).2.
Proof.
  intros Hv Hb. unfold stamp_branch. unfold valid_branch in Hv. rewrite Hv.
  unfold bind at 1. rewrite (logging_run _ _ _ _ _ Hb). unfold bind.
  fold (logged arg env b w).
  destruct (limited_sign _ _ _ _ _ _ _) as [[[sig|]|e] w']; try done.
  by case_bool_decide.
Qed.

Lemma sem_events_quiet evs :
  forallb (negb ∘ sem_event) evs = true → sem_events evs = [].
Proof.
  induction evs as [|e evs IH]; [done|]. cbn [forallb].
  intros [He Hevs]%andb_true_iff. unfold sem_events in *. cbn [omap list_omap].
  unfold compose in He. destruct (sem_event e); [done|]. by apply IH.
Qed.

Lemma sem_events_limited arg env self now commit data w :
  ∃ evs,
    trace (limited_sign arg env self now commit data w).2 = trace w ++ evs
    ∧ sem_events evs =
      (if sem_acquire env
       then [SemAcquire (timeout self) true; SemRelease]
       else [SemAcquire (timeout self) false])
    ∧ (sem_acquire env = true → last evs = Some SemRelease)
    ∧ lock_walk None evs = Some None.
Proof.
  destruct (limited_sign_events arg env self now commit data w)
    as (mid & Htr & Hmid & Hlock & _).
  eexists. split; [exact Htr|].
  destruct (sem_acquire env).
  - split_and!.
    + unfold sem_events. cbn [omap list_omap sem_event].
      rewrite omap_app. fold (sem_events mid).
      by rewrite (sem_events_quiet _ Hmid).
    + intros _. by rewrite app_comm_cons, last_snoc.
    + cbn [lock_walk]. by rewrite lock_walk_app, Hlock.
  - done.
Qed.

(** X4.  A permit of the limiter is given back exactly once, as the
    last thing the call does, whenever it was granted, also when the
    signer or the choice of handle raises; a refused permit is not
    given back, and a rejected request never asks for one. *)
Theorem permit_given_back arg env self w :
  (∀ now commit data,
     ∃ evs,
       trace (limited_sign arg env self now commit data w).2 = trace w ++ evs
       ∧ sem_events evs =
         (if sem_acquire env
          then [SemAcquire (timeout self) true; SemRelease]
          else [SemAcquire (timeout self) false])
       ∧ (sem_acquire env = true → last evs = Some SemRelease))
  ∧ (∀ commit tagname,
       ∃ evs,
         trace (stamp_tag arg env self commit tagname w).2 = trace w ++ evs
         ∧ sem_events evs =
           (if valid_commit commit && valid_tag tagname
            then if sem_acquire env
                 then [SemAcquire (timeout self) true; SemRelease]
                 else [SemAcquire (timeout self) false]
            else [])
         ∧ (valid_commit commit && valid_tag tagname = true →
            sem_acquire env = true → last evs = Some SemRelease))
  ∧ (∀ commit parent tree,
       ∃ evs,
         trace (stamp_branch arg env self commit parent tree w).2
         = trace w ++ evs
         ∧ sem_events evs =
           (if valid_branch commit parent tree
            then if sem_acquire env
                 then [SemAcquire (timeout self) true; SemRelease]
                 else [SemAcquire (timeout self) false]
            else [])
         ∧ (valid_branch commit parent tree = true →
            sem_acquire env = true → last evs = Some SemRelease)).
Proof.
  split_and!.
  - intros now commit data.
    destruct (sem_events_limited arg env self now commit data w)
      as (evs & ? & ? & ? & _). eauto.
  - intros commit tagname.
    destruct (valid_commit commit && valid_tag tagname) eqn:Hv.
    + apply andb_true_iff in Hv as [Hc Ht].
      destruct (bytes_ascii_valid_commit _ Hc) as (b & Hb & _).
      rewrite (stamp_tag_world _ _ _ _ _ _ _ Hc Ht Hb).
      destruct (sem_events_limited arg env self (sampled env) commit
                  (tagobj self commit tagname (sampled env))
                  (logged arg env b w)) as (evs & -> & Hsem & Hlast & _).
      exists (log_events arg env b ++ evs). cbn [logged trace].
      split_and!; [by rewrite app_assoc| |].
      * unfold sem_events in *. by rewrite omap_app, Hsem.
      * intros _ Hgrant. rewrite last_app, (Hlast Hgrant). done.
    + rewrite stamp_tag_reject by done. exists []. by rewrite app_nil_r.
  - intros commit parent tree.
    destruct (valid_branch commit parent tree) eqn:Hv.
    + assert (valid_commit commit = true) as Hc.
      { by apply andb_true_iff in Hv as [[? _]%andb_true_iff _]. }
      destruct (bytes_ascii_valid_commit _ Hc) as (b & Hb & _).
      rewrite (stamp_branch_world _ _ _ _ _ _ _ _ Hv Hb).
      match goal with |- context [limited_sign _ _ _ _ _ ?D _] =>
        destruct (sem_events_limited arg env self (sampled env) commit D
                    (logged arg env b w)) as (evs & -> & Hsem & Hlast & _)
      end.
      exists (log_events arg env b ++ evs). cbn [logged trace].
      split_and!; [by rewrite app_assoc| |].
      * unfold sem_events in *. by rewrite omap_app, Hsem.
      * intros _ Hgrant. rewrite last_app, (Hlast Hgrant). done.
    + rewrite stamp_branch_reject by done. exists []. by rewrite app_nil_r.
Qed.

Lemma permit_given_back_witness :
  ∃ evs,
    trace (stamp_tag arg0 env0 self0 commit0 (u "rel1") w0).2
    = trace w0 ++ evs
    ∧ last evs = Some SemRelease.
Proof.
  destruct (permit_given_back arg0 env0 self0 w0) as (_ & Ht & _).
  destruct (Ht commit0 (u "rel1")) as (evs & Htr & _ & Hlast).
  exists evs. split; [exact Htr|].
  apply Hlast; vm_compute; reflexivity.
Defined.

(** X5.  The lock discipline holds along every call of [gpg],
    [stamp_tag] and [stamp_branch], whatever the outcome: at most one
    lock is held at a time, each is given back by its holder before the
    call ends, the clock and the log are touched under [serialize]
    only, the links and the output of [gpg] under [gpg_serialize] only,
    and the limiter, the delay and the signer run with no lock held. *)
Theorem locks_kept_apart arg env self w :
  (∃ evs, trace (gpg arg w).2 = trace w ++ evs
          ∧ lock_walk None evs = Some None)
  ∧ (∀ commit tagname,
       ∃ evs,
         trace (stamp_tag arg env self commit tagname w).2 = trace w ++ evs
         ∧ lock_walk None evs = Some None)
  ∧ (∀ commit parent tree,
       ∃ evs,
         trace (stamp_branch arg env self commit parent tree w).2
         = trace w ++ evs
         ∧ lock_walk None evs = Some None).
Proof.
  split_and!.
  - destruct (gpg_events arg w) as (r & w' & evs & -> & ? & _ & ?). eauto.
  - intros commit tagname.
    destruct (valid_commit commit && valid_tag tagname) eqn:Hv.
    + apply andb_true_iff in Hv as [Hc Ht].
      destruct (bytes_ascii_valid_commit _ Hc) as (b & Hb & _).
      rewrite (stamp_tag_world _ _ _ _ _ _ _ Hc Ht Hb).
      destruct (sem_events_limited arg env self (sampled env) commit
                  (tagobj self commit tagname (sampled env))
                  (logged arg env b w)) as (evs & -> & _ & _ & Hlock).
      exists (log_events arg env b ++ evs). cbn [logged trace].
      split; [by rewrite app_assoc|]. by rewrite lock_walk_app.
    + rewrite stamp_tag_reject by done. exists []. by rewrite app_nil_r.
  - intros commit parent tree.
    destruct (valid_branch commit parent tree) eqn:Hv.
    + assert (valid_commit commit = true) as Hc.
      { by apply andb_true_iff in Hv as [[? _]%andb_true_iff _]. }
      destruct (bytes_ascii_valid_commit _ Hc) as (b & Hb & _).
      rewrite (stamp_branch_world _ _ _ _ _ _ _ _ Hv Hb).
      match goal with |- context [limited_sign _ _ _ _ _ ?D _] =>
        destruct (sem_events_limited arg env self (sampled env) commit D
                    (logged arg env b w)) as (evs & -> & _ & _ & Hlock)
      end.
      exists (log_events arg env b ++ evs). cbn [logged trace].
      split; [by rewrite app_assoc|]. by rewrite lock_walk_app.
    + rewrite stamp_branch_reject by done. exists []. by rewrite app_nil_r.
Qed.

(** ** The signature header *)

Lemma replace_snoc old new (s : pystr) c :
  replace old new (s ++ [c])
  = replace old new s ++ (if (c =? old)%N then new else [c]).
Proof. rewrite replace_app. unfold replace. csimpl. by rewrite app_nil_r. Qed.

Lemma last_replace (s : pystr) :
  last (replace LF (nl ++ u " ") s) ≠ Some LF.
Proof.
  destruct s as [|c s _] using rev_ind; [done|].
  rewrite replace_snoc. destruct (N.eqb_spec c LF) as [->|Hc].
  - change (nl ++ u " ") with ([LF] ++ [32%N]).
    by rewrite app_assoc, last_snoc.
  - rewrite last_snoc. congruence.
Qed.

(** The assertion of [stamp_branch] holds of exactly the signature
    texts that end in a line feed. *)
Lemma gpgsig_ends_in_line_feed (sig : pystr) :
  last (gpgsig sig) = Some LF ↔ ∃ body, sig = body ++ nl.
Proof.
  split.
  - destruct sig as [|c s _] using rev_ind; [by vm_compute|].
    destruct (N.eqb_spec c LF) as [->|Hc]; [by exists s|].
    unfold gpgsig. rewrite replace_snoc.
    destruct (N.eqb_spec c LF) as [?|_]; [done|].
    rewrite drop_last_snoc, last_app.
    destruct (last (replace LF (nl ++ u " ") s)) as [x|] eqn:Hlast.
    + intros [= ->]. by destruct (last_replace s).
    + by vm_compute.
  - intros [body ->]. rewrite gpgsig_trailing.
    unfold nl at 2. by rewrite !app_assoc, last_snoc.
Qed.

(** X6.  An accepted branch request that reaches the signer returns
    the commit object if the signature text ends in a line feed, and
    raises [AssertionError] for every other text, the empty one
    included; by then the commit is logged and the signer has been
    called. *)
Theorem branch_asserts_final_line_feed arg env self commit parent tree w :
  valid_branch commit parent tree = true →
  sem_acquire env = true → gpgs w ≠ [] →
  let part1 := commitobj1 self commit parent tree (sampled env) in
  let part2 := commitobj2 self (strftime_gmtime env (sampled env)) in
  let args := [u "--faked-system-time"; str_int (sampled env) ++ u "!"] in
  ∃ g r w' evs,
    stamp_branch arg env self commit parent tree w = (r, w')
    ∧ trace w' = trace w ++ evs
    ∧ sign_calls evs = [(g, part1 ++ part2, keyid self, args)]
    ∧ writes evs ≠ []
    ∧ ∀ sig,
        gpg_sign env g (part1 ++ part2) (keyid self) args = Return sig →
        ((∃ body, sig = body ++ nl)
         ∧ r = Return (PyStr (part1 ++ gpgsig sig ++ part2)))
        ∨ (¬ (∃ body, sig = body ++ nl) ∧ r = Raise AssertionError).
Proof.
  intros [[Hc Ht]%andb_true_iff Hp]%andb_true_iff Hsem Hne part1 part2 args.
  destruct (stamp_branch_run arg env self commit parent tree w Hc Ht)
    as (b & r & w' & evs & _ & Hrun & Htr & _ & _ & _ & Hr).
  { by intros p ->. }
  rewrite Hsem in Hr. destruct Hr as [(? & _)|(g & Hcalls & ->)]; [done|].
  exists g. do 2 eexists.
  exists (log_events arg env b
          ++ SemAcquire (timeout self) (sem_acquire env) :: evs).
  split_and!; [done|done|exact Hcalls|done|].
  intros sig Hsig. fold part1 part2 args. rewrite Hsig.
  rewrite <- gpgsig_ends_in_line_feed. case_bool_decide; auto.
Qed.

Lemma branch_asserts_final_line_feed_witness :
  (stamp_branch arg0 env_bare self0 commit0 None tree0 w0).1
  = Raise AssertionError.
Proof.
  destruct (branch_asserts_final_line_feed
              arg0 env_bare self0 commit0 None tree0 w0)
    as (g & r & w' & evs & Hrun & _ & _ & _ & Hr);
    [vm_compute; reflexivity..|discriminate|].
  rewrite Hrun. cbn [fst].
  destruct (Hr (u "SIGLINE1")) as [[[body Hbody] _]|[_ ->]];
    [reflexivity| |reflexivity].
  apply (f_equal last) in Hbody. unfold nl in Hbody.
  rewrite last_snoc in Hbody. vm_compute in Hbody. discriminate.
Defined.

Lemma continued_prefix (p s : pystr) :
  LF ∉ p → continued (p ++ s) = continued s.
Proof.
  induction p as [|c p IH]; [done|].
  intros [Hc Hp]%not_elem_of_cons. cbn [app continued].
  destruct (N.eqb_spec c LF); [done|]. by rewrite IH.
Qed.

Lemma continued_replace (body : pystr) :
  continued (replace LF (nl ++ u " ") body ++ nl) = true.
Proof.
  change (nl ++ u " ") with [LF; 32%N].
  induction body as [|c body IH]; [done|].
  change (c :: body) with ([c] ++ body). rewrite replace_app.
  unfold replace at 1. csimpl. rewrite app_nil_r, <- app_assoc.
  destruct (N.eqb_spec c LF) as [->|Hc].
  - cbn [app continued]. rewrite IH. reflexivity.
  - cbn [app continued]. destruct (N.eqb_spec c LF); [done|]. by rewrite IH.
Qed.

Lemma replace_inj (s1 s2 : pystr) :
  replace LF (nl ++ u " ") s1 = replace LF (nl ++ u " ") s2 → s1 = s2.
Proof.
  change (nl ++ u " ") with [LF; 32%N].
  revert s2. induction s1 as [|c1 s1 IH]; intros [|c2 s2].
  - done.
  - unfold replace. csimpl. by destruct (c2 =? LF)%N.
  - unfold replace. csimpl. by destruct (c1 =? LF)%N.
  - change (c1 :: s1) with ([c1] ++ s1). change (c2 :: s2) with ([c2] ++ s2).
    rewrite !replace_app. unfold replace at 1 3. csimpl. rewrite !app_nil_r.
    destruct (N.eqb_spec c1 LF) as [->|H1], (N.eqb_spec c2 LF) as [->|H2];
      cbn [app]; intros [= ]; subst; try done.
    all: f_equal; by apply IH.
Qed.

(** X7.  The header made of a signature text that ends in a line feed
    is a single git header: every line feed in it is followed by a
    space or is its last character.  And no two such signature texts
    give the same header. *)
Theorem gpgsig_is_one_header_and_injective :
  (∀ body, continued (gpgsig (body ++ nl)) = true)
  ∧ (∀ body1 body2,
       gpgsig (body1 ++ nl) = gpgsig (body2 ++ nl) → body1 = body2).
Proof.
  split.
  - intros body. rewrite gpgsig_trailing, continued_prefix.
    + apply continued_replace.
    + vm_compute. intros H. repeat (apply elem_of_cons in H as [[=]|H]).
      by apply elem_of_nil in H.
  - intros body1 body2. rewrite !gpgsig_trailing.
    intros H%app_inv_head%app_inv_tail. by apply replace_inj.
Qed.

Lemma gpgsig_is_one_header_and_injective_witness :
  gpgsig (u "SIGLINE1" ++ nl) ≠ gpgsig (u "SIGLINE2" ++ nl).
Proof.
  destruct gpgsig_is_one_header_and_injective as [_ Hinj].
  intros H. apply Hinj in H. vm_compute in H. discriminate.
Defined.

(** ** Construction *)

(** X8.  With a number of permits that is not negative, [__init__]
    looks the key up through the handle its first selection
    returns, which with two or more agents is the handle just made for
    [gnupg_home-1] and not the first one.  Without a key it raises
    [ValueError], with a first key without user id [IndexError], in
    both cases before anything is exported.  Otherwise the stamper it
    returns has the first user id of the first key as [fullid], what the
    handle of the second selection exports as [pubkey], and the
    configured URL, key id and timeout; no delay is set, and the pool
    holds up to three handles. *)
Theorem init_outcome arg env w :
  (0 ≤ config.max_parallel_signatures arg)%Z →
  let n := config.number_of_gpg_agents arg in
  let h0 := mkGPG (config.gnupg_home arg) in
  let h1 := mkGPG (agent_home arg 1) in
  let h2 := mkGPG (agent_home arg 2) in
  let g1 := if decide (1 < n)%Z then h1 else h0 in
  let g2 := if decide (2 < n)%Z then h2 else h0 in
  let keys := gpg_list_keys env g1 (config.keyid arg) in
  let r := (init arg env w).1 in
  let w' := (init arg env w).2 in
  match keys with
  | [] =>
      r = Raise ValueError
      ∧ last (trace w') = Some (ListKeys g1 (config.keyid arg))
  | [] :: _ =>
      r = Raise IndexError
      ∧ last (trace w') = Some (ListKeys g1 (config.keyid arg))
  | (uid :: _) :: _ =>
      r = Return {| timeout := config.max_parallel_timeout arg;
                    url := config.own_url arg;
                    keyid := config.keyid arg;
                    keyinfo := keys;
                    fullid := uid;
                    pubkey := gpg_export_keys env g2 (config.keyid arg) |}
      ∧ extra_delay w' = None
      ∧ gpgs w' = (if decide (2 < n)%Z then [h0; h1; h2]
                   else if decide (1 < n)%Z then [h1; h0] else [h0])
      ∧ last (trace w') = Some (ExportKeys g2 (config.keyid arg))
  end.
Proof.
  intros Hpar n h0 h1 h2 g1 g2 keys r w'. subst r w' keys g1 g2.
  unfold init. run.
  apply Z.ltb_ge in Hpar as ->.
  destruct (decide (1 < n)%Z) as [H1|H1].
  - erewrite gpg_grow by (cbn [gpgs length]; fold n; lia).
    cbv zeta. run. cbn [length app]. fold h1.
    destruct (gpg_list_keys env h1 (config.keyid arg))
      as [|[|uid uids] ks] eqn:Hk; cbn [length Nat.eqb].
    + cbn [fst snd trace]. split; [done|]. by rewrite last_snoc.
    + cbn [lookup list_lookup mbind option_bind fst snd trace].
      split; [done|]. by rewrite last_snoc.
    + cbn [lookup list_lookup mbind option_bind].
      destruct (decide (2 < n)%Z) as [H2|H2].
      * erewrite gpg_grow by (cbn [gpgs length app]; fold n; lia).
        cbv zeta. run. cbn [length app fst snd trace extra_delay gpgs].
        fold h0 h2. split_and!; try done. by rewrite last_snoc.
      * erewrite gpg_rotate;
          [|cbn [gpgs length app]; fold n; lia|cbn [gpgs app]; reflexivity].
        run. cbn [length app fst snd trace extra_delay gpgs].
        fold h0. split_and!; try done. by rewrite last_snoc.
  - erewrite gpg_rotate;
      [|cbn [gpgs length app]; fold n; lia|cbn [gpgs app]; reflexivity].
    run. cbn [length app]. fold h0.
    destruct (gpg_list_keys env h0 (config.keyid arg))
      as [|[|uid uids] ks] eqn:Hk; cbn [length Nat.eqb].
    + cbn [fst snd trace]. split; [done|]. by rewrite last_snoc.
    + cbn [lookup list_lookup mbind option_bind fst snd trace].
      split; [done|]. by rewrite last_snoc.
    + cbn [lookup list_lookup mbind option_bind].
      destruct (decide (2 < n)%Z) as [H2|H2]; [lia|].
      erewrite gpg_rotate;
        [|cbn [gpgs length app]; fold n; lia|cbn [gpgs app]; reflexivity].
      run. cbn [length app fst snd trace extra_delay gpgs].
      split_and!; try done. by rewrite last_snoc.
Qed.

(** ** Steps of the stamper *)

Lemma links_app evs1 evs2 : links (evs1 ++ evs2) = links evs1 ++ links evs2.
Proof. apply omap_app. Qed.

Lemma evolves_refl arg w : evolves arg w w.
Proof.
  split_and!; [done|done|lia|done|]. exists []. rewrite app_nil_r.
  split_and!; [done|constructor|]. by intros l t ?%elem_of_nil.
Qed.

Lemma evolves_trans arg w1 w2 w3 :
  evolves arg w1 w2 → evolves arg w2 w3 → evolves arg w1 w3.
Proof.
  intros (Hin1 & Hok1 & Hlen1 & Hfs1 & evs1 & Htr1 & Hnd1 & Hl1)
         (Hin2 & Hok2 & Hlen2 & Hfs2 & evs2 & Htr2 & Hnd2 & Hl2).
  assert (gpgs w1 ≠ [] → gpgs w2 ≠ []) as Hne.
  { destruct (gpgs w1) as [|g ?] eqn:E; [done|]. intros _ E2.
    specialize (Hin1 g). rewrite E2 in Hin1.
    eapply not_elem_of_nil, Hin1. by left. }
  split_and!; [by auto|by auto|lia|by auto|].
  exists (evs1 ++ evs2). rewrite Htr2, Htr1, app_assoc. split; [done|].
  rewrite links_app, fmap_app. split.
  - apply NoDup_app. split_and!; [done| |done].
    intros l [[l1 t1] [-> Hlt1]]%list_elem_of_fmap
             [[l2 t2] [Heq Hlt2]]%list_elem_of_fmap.
    cbn [fst] in Heq. subst l2.
    destruct (Hl1 _ _ Hlt1) as (_ & _ & Hthere & _).
    destruct (Hl2 _ _ Hlt2) as (_ & Hfresh & _). done.
  - intros l t [H|H]%elem_of_app.
    + destruct (Hl1 _ _ H) as (? & ? & ? & ?). split_and!; auto.
    + destruct (Hl2 _ _ H) as (? & Hfresh & ? & i & Hi & ? & ?).
      split_and!; [done| |done|].
      * intros Hl. by apply Hfresh, Hfs1.
      * exists i. split_and!; auto.
Qed.

Lemma evolves_quiet arg w w' evs :
  gpgs w' = gpgs w → fs w' = fs w → trace w' = trace w ++ evs →
  links evs = [] → evolves arg w w'.
Proof.
  intros Hg Hf Ht Hl. unfold evolves. rewrite Hg, Hf.
  split_and!; [done|done|lia|done|].
  exists evs. rewrite Hl. split_and!; [done|constructor|].
  by intros l t ?%elem_of_nil.
Qed.

Lemma evolves_gpg arg w : evolves arg w (gpg arg w).2.
Proof.
  destruct (gpg arg w) as [r w'] eqn:Hgpg. cbn [snd].
  destruct (gpg_pool _ _ _ _ Hgpg) as (Hsub & Hlen & Hok & _).
  split_and!; [done|done|case_decide; lia|..].
  all: destruct (decide (Z.of_nat (length (gpgs w))
                         < config.number_of_gpg_agents arg)%Z) as [Hlt|Hge].
  - rewrite (gpg_grow _ _ Hlt) in Hgpg. injection Hgpg as _ <-. cbn [fs].
    intros p Hp. destruct (lstat _ w); set_solver.
  - destruct (list_eq_nil_dec (gpgs w)) as [Hw|Hw];
      [|destruct (gpgs w) as [|g rest] eqn:Hw'; [done|]; clear Hw;
        rewrite <- Hw' in Hge].
    + rewrite (gpg_empty _ _ Hge Hw) in Hgpg. by injection Hgpg as _ <-.
    + rewrite (gpg_rotate _ _ _ _ Hge Hw') in Hgpg. by injection Hgpg as _ <-.
  - rewrite (gpg_grow _ _ Hlt) in Hgpg. injection Hgpg as _ <-.
    cbn [fs trace]. eexists. split; [reflexivity|].
    destruct (lstat _ w) eqn:Hst; cbn.
    + split; [constructor|]. by intros l t ?%elem_of_nil.
    + split; [apply NoDup_singleton|].
      intros l t [= -> ->]%list_elem_of_singleton.
      apply bool_decide_eq_false in Hst.
      split_and!; [done|done|set_solver|].
      exists (length (gpgs w)). split_and!; [|done|done].
      destruct (gpgs w); [done|simpl; lia].
  - destruct (list_eq_nil_dec (gpgs w)) as [Hw|Hw];
      [|destruct (gpgs w) as [|g rest] eqn:Hw'; [done|]; clear Hw;
        rewrite <- Hw' in Hge].
    + rewrite (gpg_empty _ _ Hge Hw) in Hgpg. injection Hgpg as _ <-.
      cbn [fs trace]. eexists. split; [reflexivity|]. cbn.
      split; [constructor|]. by intros l t ?%elem_of_nil.
    + rewrite (gpg_rotate _ _ _ _ Hge Hw') in Hgpg. injection Hgpg as _ <-.
      cbn [fs trace]. eexists. split; [reflexivity|]. cbn.
      split; [constructor|]. by intros l t ?%elem_of_nil.
Qed.

Ltac quiet :=
  first
    [ apply evolves_refl
    | eapply evolves_quiet; cbn [gpgs fs trace];
      [reflexivity|reflexivity|rewrite <- ?app_assoc; reflexivity
      |reflexivity] ].

Lemma limited_sign_evolves arg env self now commit data w :
  evolves arg w (limited_sign arg env self now commit data w).2.
Proof.
  unfold limited_sign. run.
  destruct (sem_acquire env); [|cbn [snd]; quiet].
  cbn [extra_delay].
  destruct (extra_delay w) as [d|]; [destruct (d =? 0)%N|].
  all: match goal with |- context [gpg ?A ?W] =>
         pose proof (evolves_gpg A W) as Hstep;
         destruct (gpg A W) as [[g|e] w2]
       end.
  all: cbn [snd] in Hstep.
  all: try match goal with |- context [gpg_sign ?E ?G ?D ?K ?A] =>
             destruct (gpg_sign E G D K A)
           end.
  all: cbn [snd].
  all: eapply evolves_trans; [eapply evolves_trans; [|exact Hstep]|].
  all: quiet.
Qed.

Lemma stamp_tag_evolves arg env self commit tagname w :
  evolves arg w (stamp_tag arg env self commit tagname w).2.
Proof.
  destruct (valid_commit commit && valid_tag tagname) eqn:Hv.
  - apply andb_true_iff in Hv as [Hc Ht].
    destruct (bytes_ascii_valid_commit _ Hc) as (b & Hb & _).
    rewrite (stamp_tag_world _ _ _ _ _ _ _ Hc Ht Hb).
    eapply evolves_trans; [|apply limited_sign_evolves].
    by eapply (evolves_quiet _ _ _ (log_events arg env b)).
  - rewrite stamp_tag_reject by done. apply evolves_refl.
Qed.

Lemma stamp_branch_evolves arg env self commit parent tree w :
  evolves arg w (stamp_branch arg env self commit parent tree w).2.
Proof.
  destruct (valid_branch commit parent tree) eqn:Hv.
  - assert (valid_commit commit = true) as Hc.
    { unfold valid_branch in Hv. by destruct (valid_commit commit). }
    destruct (bytes_ascii_valid_commit _ Hc) as (b & Hb & _).
    rewrite (stamp_branch_world _ _ _ _ _ _ _ _ Hv Hb).
    eapply evolves_trans; [|apply limited_sign_evolves].
    by eapply (evolves_quiet _ _ _ (log_events arg env b)).
  - rewrite stamp_branch_reject by done. apply evolves_refl.
Qed.

Lemma served_evolves arg self qs w : evolves arg w (served arg self qs w).
Proof.
  revert w. induction qs as [|[env q] qs IH]; intros w; cbn [served].
  - apply evolves_refl.
  - eapply evolves_trans; [|apply IH].
    destruct q; [apply stamp_tag_evolves|apply stamp_branch_evolves].
Qed.

Lemma init_evolves arg env w s w1 :
  init arg env w = (Return s, w1) →
  evolves arg
    (World [mkGPG (config.gnupg_home arg)] (extra_delay w) (fs w)
       (hashes_work w) (hashes_work_synced w) (trace w)) w1.
Proof.
  unfold init. run.
  destruct (config.max_parallel_signatures arg <? 0)%Z; [done|].
  match goal with |- context [gpg ?A ?W] =>
    pose proof (evolves_gpg A W) as Hstep1;
    destruct (gpg A W) as [[g1|e] wa]
  end; [|done].
  cbn [snd] in Hstep1.
  destruct (length (gpg_list_keys env g1 (config.keyid arg)) =? 0); [done|].
  destruct (gpg_list_keys env g1 (config.keyid arg) !! 0 ≫= (.!! 0));
    [|done].
  match goal with |- context [gpg ?A ?W] =>
    pose proof (evolves_gpg A W) as Hstep2;
    destruct (gpg A W) as [[g2|e] wb]
  end; [|done].
  cbn [snd] in Hstep2. intros [= _ <-].
  eapply evolves_trans; [exact Hstep1|].
  eapply evolves_trans; [|eapply evolves_trans; [exact Hstep2|]].
  all: quiet.
Qed.

Lemma init_outcome_witness :
  (init arg0 env0 w_boot).1 = Return self0
  ∧ gpgs (init arg0 env0 w_boot).2
    = [mkGPG (config.gnupg_home arg0); mkGPG (agent_home arg0 1);
       mkGPG (agent_home arg0 2)].
Proof.
  pose proof (init_outcome arg0 env0 w_boot) as H. cbv zeta in H.
  destruct H as (Hr & _ & Hpool & _); [vm_compute; discriminate|].
  split; [exact Hr|exact Hpool].
Defined.

(** ** The pool and the links over the life of the stamper *)

(** X9.  Once [__init__] has returned, any run of tag and branch
    requests, each in whatever environment it meets, leaves the pool in
    order: no handle twice, the first handle still in it, no handle
    lost, at most as many handles as agents are configured (one if
    fewer), and the next selection returns a handle, so that [gpg]
    does not raise [IndexError] on [self.gpgs[0]]. *)
Theorem pool_survives_requests arg env s w w1 qs :
  init arg env w = (Return s, w1) →
  let w2 := served arg s qs w1 in
  pool_ok arg (gpgs w2)
  ∧ mkGPG (config.gnupg_home arg) ∈ gpgs w2
  ∧ (∀ g, g ∈ gpgs w1 → g ∈ gpgs w2)
  ∧ (Z.of_nat (length (gpgs w2))
     ≤ (1 `max` config.number_of_gpg_agents arg))%Z
  ∧ ∃ g, (gpg arg w2).1 = Return g.
Proof.
  intros Hinit w2.
  pose proof (served_evolves arg s qs w1) as Hserved. fold w2 in Hserved.
  destruct (evolves_trans _ _ _ _ (init_evolves _ _ _ _ _ Hinit) Hserved)
    as (Hin & Hok & Hlen & _).
  cbn [gpgs length] in Hin, Hok, Hlen.
  assert (mkGPG (config.gnupg_home arg) ∈ gpgs w2) as Hfirst
    by (apply Hin; by left).
  split_and!; [|done|by apply Hserved|lia|].
  - apply Hok; [done|]. split; [apply NoDup_singleton|].
    intros g ->%list_elem_of_singleton. by left.
  - destruct (gpg arg w2) as [r w3] eqn:Hgpg.
    destruct (gpg_pool _ _ _ _ Hgpg) as (_ & _ & _ & Hr).
    apply Hr. intros Hnil. rewrite Hnil in Hfirst.
    by apply not_elem_of_nil in Hfirst.
Qed.

Lemma pool_survives_requests_witness :
  pool_ok arg0
    (gpgs (served arg0 self0
             [(env0, TagRequest commit0 (u "rel1"));
              (env_busy, BranchRequest commit0 None tree0);
              (env0, BranchRequest commit0 (Some tree0) tree0)]
             (init arg0 env0 w_boot).2)).
Proof.
  apply (pool_survives_requests arg0 env0 self0 w_boot
           (init arg0 env0 w_boot).2).
  vm_compute. reflexivity.
Defined.

(** X10.  From before [__init__] to after any run of requests, no path
    of the file system disappears, and every link made is made once, to
    the GnuPG home, at the path [gnupg_home-i] of an agent
    [0 < i < number_of_gpg_agents] where nothing was before. *)
Theorem links_made_once arg env s w w1 qs :
  init arg env w = (Return s, w1) →
  let w2 := served arg s qs w1 in
  (∀ p, p ∈ fs w → p ∈ fs w2)
  ∧ ∃ evs,
      trace w2 = trace w ++ evs
      ∧ NoDup (links evs).*1
      ∧ ∀ l t, (l, t) ∈ links evs →
          t = config.gnupg_home arg ∧ (l ∉ fs w) ∧ l ∈ fs w2
          ∧ ∃ i, 0 < i
                 ∧ (Z.of_nat i < config.number_of_gpg_agents arg)%Z
                 ∧ l = agent_home arg i.
Proof.
  intros Hinit w2.
  destruct (evolves_trans _ _ _ _ (init_evolves _ _ _ _ _ Hinit)
              (served_evolves arg s qs w1))
    as (_ & _ & _ & Hfs & evs & Htr & Hnd & Hl).
  cbn [gpgs fs trace] in Hfs, Htr, Hl. split; [done|].
  exists evs. split_and!; [done|done|].
  intros l t Hlt. destruct (Hl _ _ Hlt) as (? & ? & ? & i & Hi & ? & ?).
  split_and!; [done..|]. exists i. split_and!; [by apply Hi|done|done].
Qed.

Lemma links_made_once_witness :
  ∃ evs,
    trace (served arg0 self0 [(env0, TagRequest commit0 (u "rel1"))]
             (init arg0 env0 w_boot).2) = trace w_boot ++ evs
    ∧ NoDup (links evs).*1.
Proof.
  destruct (links_made_once arg0 env0 self0 w_boot
              (init arg0 env0 w_boot).2
              [(env0, TagRequest commit0 (u "rel1"))])
    as (_ & evs & Htr & Hnd & _); [vm_compute; reflexivity|].
  exists evs. split; [exact Htr|exact Hnd].
Defined.

(** ** The order of the handles *)

Lemma selections_fresh arg k w :
  (Z.of_nat (length (gpgs w) + k) ≤ config.number_of_gpg_agents arg)%Z →
  let new := (λ i, mkGPG (agent_home arg i)) <$> seq (length (gpgs w)) k in
  ∃ w', selections arg k w = (Return new, w') ∧ gpgs w' = gpgs w ++ new.
Proof.
  revert w. induction k as [|k IH]; intros w Hle new; subst new.
  - exists w. by rewrite app_nil_r.
  - cbn [selections]. unfold bind. rewrite gpg_grow by lia. cbv zeta.
    match goal with |- context [selections _ _ ?W] =>
      destruct (IH W) as (w' & -> & Hw')
    end.
    { cbn [gpgs]. rewrite length_app. cbn [length]. lia. }
    cbn [gpgs] in Hw'. rewrite length_app in Hw'. cbn [length] in Hw'.
    cbn [gpgs]. rewrite length_app. cbn [length].
    replace (length (gpgs w) + 1) with (S (length (gpgs w))) in * by lia.
    exists w'. unfold ret. cbn [seq fmap list_fmap]. split; [done|].
    rewrite Hw', <- app_assoc. done.
Qed.

(** X11.  On the pool as construction makes it, with [n] agents
    configured, the first [n - 1] selections return the handles made
    for [gnupg_home-1] to [gnupg_home-(n-1)], in this order, none of
    them the first handle; the first handle is returned by the [n]th
    selection, and the [n] selections from there return the handles in
    the order they were made and leave the pool as it was. *)
Theorem new_handles_first arg w :
  gpgs w = [mkGPG (config.gnupg_home arg)] →
  (1 ≤ config.number_of_gpg_agents arg)%Z →
  let k := Z.to_nat (config.number_of_gpg_agents arg) - 1 in
  let first := mkGPG (config.gnupg_home arg) in
  let new := (λ i, mkGPG (agent_home arg i)) <$> seq 1 k in
  (first ∉ new)
  ∧ ∃ w1 w2,
      selections arg k w = (Return new, w1)
      ∧ gpgs w1 = first :: new
      ∧ selections arg (S k) w1 = (Return (first :: new), w2)
      ∧ gpgs w2 = first :: new.
Proof.
  intros Hw Hn k first new. split.
  - intros (i & [= Hi] & _)%list_elem_of_fmap.
    symmetry in Hi. by apply agent_home_fresh in Hi.
  - destruct (selections_fresh arg k w) as (w1 & Hrun & Hw1).
    { rewrite Hw. cbn [length]. lia. }
    rewrite Hw in Hrun, Hw1. cbn [length app] in Hrun, Hw1.
    fold new first in Hrun, Hw1.
    destruct (selections_rotate arg (first :: new) [] w1)
      as (w2 & Hrun2 & Hw2).
    { rewrite Hw1. cbn [length]. subst new.
      rewrite length_fmap, length_seq. lia. }
    { by rewrite app_nil_r. }
    exists w1, w2. split_and!; [done|done| |done].
    cbn [length] in Hrun2. subst new.
    by rewrite length_fmap, length_seq in Hrun2.
Qed.

Lemma new_handles_first_witness :
  ∃ w1,
    selections arg0 2 w0
    = (Return [mkGPG (agent_home arg0 1); mkGPG (agent_home arg0 2)], w1).
Proof.
  destruct (new_handles_first arg0 w0) as (_ & w1 & _ & Hrun & _);
    [reflexivity|vm_compute; discriminate|].
  exists w1. exact Hrun.
Defined.

(** ** The signed text and the request *)

Lemma split_at_line_feed (s1 s2 r1 r2 : pystr) :
  LF ∉ s1 → LF ∉ s2 → s1 ++ LF :: r1 = s2 ++ LF :: r2 →
  s1 = s2 ∧ r1 = r2.
Proof.
  revert s2. induction s1 as [|c s1 IH]; intros [|d s2] H1 H2 H;
    cbn [app] in H.
  - by injection H as ->.
  - injection H as <- _. exfalso. apply H2. by left.
  - injection H as -> _. exfalso. apply H1. by left.
  - injection H as -> H. destruct (IH s2) as [-> ->]; [| |done..].
    + intros ?. apply H1. by right.
    + intros ?. apply H2. by right.
Qed.

Lemma valid_commit_no_line_feed s : valid_commit s = true → LF ∉ s.
Proof.
  unfold valid_commit. destruct (contains nl s) eqn:E; [done|].
  intros _. by apply contains_nl_false.
Qed.

Lemma valid_tag_no_line_feed s : valid_tag s = true → LF ∉ s.
Proof. by intros [? _]%valid_tag_grammar. Qed.

Lemma author_is_no_parent (x y : pystr) : u "author " ++ x ≠ u "parent " ++ y.
Proof. intros H. apply (f_equal head) in H. vm_compute in H. discriminate. Qed.

Lemma twice_inj (s1 s2 a b c d f e : pystr) :
  s1 ++ a ++ b ++ c ++ d ++ f ++ s1 ++ e
  = s2 ++ a ++ b ++ c ++ d ++ f ++ s2 ++ e → s1 = s2.
Proof.
  intros H. apply app_inj_1 in H as [H _]; [done|].
  apply (f_equal length) in H. rewrite !length_app in H. lia.
Qed.

(** X13.  The text handed to the signer tells the request: the tag
    objects of two accepted tag requests to one stamper are equal only
    if commit id, tag name and time are, and the first sections of the
    commit objects of two accepted branch requests only if commit id,
    parent, tree and time are. *)
Theorem signed_text_determines_request self :
  (∀ c1 t1 n1 c2 t2 n2,
     valid_commit c1 = true → valid_commit c2 = true →
     valid_tag t1 = true → valid_tag t2 = true →
     tagobj self c1 t1 n1 = tagobj self c2 t2 n2 →
     c1 = c2 ∧ t1 = t2 ∧ n1 = n2)
  ∧ (∀ c1 p1 tr1 n1 c2 p2 tr2 n2,
       valid_branch c1 p1 tr1 = true → valid_branch c2 p2 tr2 = true →
       commitobj1 self c1 p1 tr1 n1 = commitobj1 self c2 p2 tr2 n2 →
       c1 = c2 ∧ p1 = p2 ∧ tr1 = tr2 ∧ n1 = n2).
Proof.
  split.
  - intros c1 t1 n1 c2 t2 n2 Hc1%valid_commit_no_line_feed
      Hc2%valid_commit_no_line_feed Ht1%valid_tag_no_line_feed
      Ht2%valid_tag_no_line_feed H.
    unfold tagobj in H. apply app_inv_head in H.
    apply (split_at_line_feed c1 c2) in H as [-> H]; [|done..].
    do 3 apply app_inv_head in H.
    apply (split_at_line_feed t1 t2) in H as [-> H]; [|done..].
    do 3 apply app_inv_head in H. apply app_inv_tail in H.
    by apply str_int_inj in H as ->.
  - intros c1 p1 tr1 n1 c2 p2 tr2 n2 Hv1 Hv2 H.
    unfold valid_branch in Hv1, Hv2.
    apply andb_true_iff in Hv1 as [[Hc1 Htr1]%andb_true_iff Hp1].
    apply andb_true_iff in Hv2 as [[Hc2 Htr2]%andb_true_iff Hp2].
    apply valid_commit_no_line_feed in Hc1, Hc2, Htr1, Htr2.
    unfold commitobj1 in H.
    destruct p1 as [p1|], p2 as [p2|].
    all: try apply valid_commit_no_line_feed in Hp1.
    all: try apply valid_commit_no_line_feed in Hp2.
    all: apply app_inv_head in H.
    all: apply (split_at_line_feed tr1 tr2) in H as [-> H]; [|done..].
    all: apply app_inv_head in H.
    + apply (split_at_line_feed p1 p2) in H as [-> H]; [|done..].
      apply app_inv_head in H.
      apply (split_at_line_feed c1 c2) in H as [-> H]; [|done..].
      do 3 apply app_inv_head in H. by apply twice_inj, str_int_inj in H as ->.
    + apply (split_at_line_feed p1 c2) in H as [-> H]; [|done..].
      symmetry in H. by apply author_is_no_parent in H.
    + apply (split_at_line_feed c1 p2) in H as [-> H]; [|done..].
      by apply author_is_no_parent in H.
    + apply (split_at_line_feed c1 c2) in H as [-> H]; [|done..].
      do 3 apply app_inv_head in H. by apply twice_inj, str_int_inj in H as ->.
Qed.

Lemma signed_text_determines_request_witness :
  tagobj self0 commit0 (u "rel1") 1577836800
  ≠ tagobj self0 commit0 (u "rel1") 1577836801.
Proof.
  destruct (signed_text_determines_request self0) as [Ht _].
  intros H. apply Ht in H as (_ & _ & Hn); [discriminate|..].
  all: vm_compute; reflexivity.
Defined.
